(** * MurmurHash3 (x86, 32 bit) as computed by the templates of murmur.h

    The header computes the digest of a pack of [char] template arguments by
    template recursion: every partial specialisation of [MurmurHash32Impl]
    holds a few enumerators and names the next instantiation.  The embedding
    keeps one Rocq definition per specialisation, with the enumerators bound
    in order under the names the header gives them.

    Every enumerator is initialised by a constant expression, and an
    initialiser that is not a constant expression makes the instantiation
    ill-formed.  The embedding follows the rules of C++11/14/17 with a
    32 bit [int]:
    - a literal without suffix is an [int] when it fits and an
      [unsigned int] otherwise ([C1] and [N] are unsigned, [C2], [M], [R1]
      and [R2] are [int]s);
    - a template parameter of type [std::uint32_t] is an [unsigned int]; a
      [char] argument promotes to the [int] of its value;
    - an enumerator of an unscoped enumeration promotes to [int] when its
      value is below 2^31 and to [unsigned int] otherwise;
    - an operation with an [unsigned int] operand is done modulo 2^32; on two
      [int]s a product or sum that overflows, a left shift of a negative
      value and a left shift whose result does not fit 32 bits are not
      constant expressions.
    Whether plain [char] is signed is left to the host and is a parameter
    where it matters. *)

From Stdlib Require Import Ascii String.
From Stdlib Require Import ZArith List Lia Bool.
Import ListNotations.
Local Open Scope Z_scope.

(** ** 32-bit words *)

Module Word32.

Definition modulus : Z := 2 ^ 32.

(** Conversion to [unsigned int]. *)
Definition to_u32 (x : Z) : Z := x mod modulus.

(** Conversion to [int] (two's complement wrap). *)
Definition to_i32 (x : Z) : Z := (x + 2 ^ 31) mod modulus - 2 ^ 31.

Definition in_u32 (x : Z) : Prop := 0 <= x < modulus.

(** [a * b] and [a + b] when one operand is [unsigned int]. *)
Definition mul32 (a b : Z) : Z := to_u32 (to_u32 a * to_u32 b).
Definition add32 (a b : Z) : Z := to_u32 (to_u32 a + to_u32 b).

(** [x << r] and [x >> r] on an [unsigned int]. *)
Definition shl32 (x r : Z) : Z := to_u32 (Z.shiftl x r).
Definition shr32 (x r : Z) : Z := Z.shiftr x r.

End Word32.
Import Word32.
(** ** Constant expressions *)

(** The two types integral constant expressions of the header have. *)
Inductive ctype : Type := Int | UInt.

(** A typed value, and an expression that may fail to be constant. *)
Definition cval : Type := (ctype * Z)%type.
Definition cexpr : Type := option cval.

Definition in_int (x : Z) : bool := (- 2 ^ 31 <=? x) && (x <? 2 ^ 31).

(** A literal without suffix. *)
Definition literal (z : Z) : cexpr :=
  Some (if z <? 2 ^ 31 then Int else UInt, z).

(** An enumerator used as an operand (integral promotion). *)
Definition enumerator (v : Z) : cexpr :=
  Some (if v <? 2 ^ 31 then Int else UInt, v).

(** A [char] template argument used as an operand, and a [std::uint32_t]
    one. *)
Definition char_arg (c : Z) : cexpr := Some (Int, c).
Definition u32_arg (h : Z) : cexpr := Some (UInt, h).

(** A binary operator after the usual arithmetic conversions: [fi] on two
    [int]s, [fu] as soon as one operand is unsigned. *)
Definition arith (fi : Z -> Z -> option Z) (fu : Z -> Z -> Z) (a b : cexpr)
  : cexpr :=
  match a, b with
  | Some (Int, x), Some (Int, y) =>
      match fi x y with
      | Some z => Some (Int, z)
      | None => None
      end
  | Some (_, x), Some (_, y) => Some (UInt, fu x y)
  | _, _ => None
  end.

(** The result of an [int] operation, which must fit an [int]. *)
Definition checked (z : Z) : option Z := if in_int z then Some z else None.

Definition c_mul : cexpr -> cexpr -> cexpr :=
  arith (fun x y => checked (x * y)) mul32.
Definition c_add : cexpr -> cexpr -> cexpr :=
  arith (fun x y => checked (x + y)) add32.
Definition c_xor : cexpr -> cexpr -> cexpr :=
  arith (fun x y => Some (Z.lxor x y))
        (fun x y => Z.lxor (to_u32 x) (to_u32 y)).
Definition c_or : cexpr -> cexpr -> cexpr :=
  arith (fun x y => Some (Z.lor x y))
        (fun x y => Z.lor (to_u32 x) (to_u32 y)).

(** [a << r]: on an [int] the operand must not be negative and the result
    must fit 32 bits; it is then converted to [int]. *)
Definition c_shl (a : cexpr) (r : Z) : cexpr :=
  match a with
  | Some (Int, x) =>
      if (0 <=? x) && (Z.shiftl x r <? 2 ^ 32)
      then Some (Int, to_i32 (Z.shiftl x r))
      else None
  | Some (UInt, x) => Some (UInt, shl32 x r)
  | None => None
  end.

(** [a >> r]. *)
Definition c_shr (a : cexpr) (r : Z) : cexpr :=
  match a with
  | Some (t, x) => Some (t, shr32 x r)
  | None => None
  end.

(** [enum { K = e }] followed by the rest of the specialisation: the
    instantiation is ill-formed when [e] is not a constant expression. *)
Definition enum_bind (e : cexpr) (k : Z -> option Z) : option Z :=
  match e with
  | Some (_, v) => k v
  | None => None
  end.

Notation "'enum' K ':=' e ';;' k" := (enum_bind e (fun K => k))
  (at level 10, K name, e at level 100, k at level 200).

(** The idiom [(X << r) | (X >> (32 - r))] on an enumerator [X]. *)
Definition rotate_idiom (X r : Z) : cexpr :=
  c_or (c_shl (enumerator X) r) (c_shr (enumerator X) (32 - r)).

(** ** The header *)

(** The magic constants ([#define]s of the header). *)
Definition C1 : Z := 0xcc9e2d51.
Definition C2 : Z := 0x1b873593.
Definition R1 : Z := 15.
Definition R2 : Z := 13.
Definition M : Z := 5.
Definition N : Z := 0xe6546b64.

(** The values of a plain [char], signed or unsigned by the host. *)
Definition is_char (char_signed : bool) (c : Z) : bool :=
  if char_signed then (-128 <=? c) && (c <=? 127)
  else (0 <=? c) && (c <=? 255).

(** The byte a [char] stands for, and the [char] a byte is read as. *)
Definition byte_of (c : Z) : Z := c mod 256.
Definition char_of_byte (char_signed : bool) (b : Z) : Z :=
  if char_signed && (128 <=? b) then b - 256 else b.

(** The pack of an ASCII literal, ['a','b',...]. *)
Fixpoint chars_of (s : String.string) : list Z :=
  match s with
  | String.EmptyString => []
  | String.String c s' => Z.of_N (Ascii.N_of_ascii c) :: chars_of s'
  end.

(** [MurmurHash32Impl<Hash, Length>]: the final hash calculations. *)
Definition MurmurHash32Impl_final (Hash Length : Z) : Z :=
  let Hash1 := Z.lxor Hash Length in
  let Hash2 := Z.lxor Hash1 (shr32 Hash1 16) in
  let Hash3 := mul32 Hash2 0x85ebca6b in
  let Hash4 := Z.lxor Hash3 (shr32 Hash3 13) in
  let Hash5 := mul32 Hash4 0xc2b2ae35 in
  let Hash6 := Z.lxor Hash5 (shr32 Hash5 16) in
  Hash6.

(** [MurmurHash32Impl<Hash, Length, A>]: enumerator [Hash1]. *)
Definition MurmurHash32Impl_tail1 (Hash A : Z) : option Z :=
  enum K0 := c_xor (literal 0x00000000) (char_arg A) ;;
  enum K1 := c_mul (enumerator K0) (literal C1) ;;
  enum K2 := rotate_idiom K1 R1 ;;
  enum K3 := c_mul (enumerator K2) (literal C2) ;;
  enum Hash1 := c_xor (u32_arg Hash) (enumerator K3) ;;
  Some Hash1.

(** [MurmurHash32Impl<Hash, Length, A, B>]: enumerator [Hash1]. *)
Definition MurmurHash32Impl_tail2 (Hash A B : Z) : option Z :=
  enum K0 := c_xor (literal 0x00000000) (c_shl (char_arg B) 8) ;;
  enum K1 := c_xor (enumerator K0) (char_arg A) ;;
  enum K2 := c_mul (enumerator K1) (literal C1) ;;
  enum K3 := rotate_idiom K2 R1 ;;
  enum K4 := c_mul (enumerator K3) (literal C2) ;;
  enum Hash1 := c_xor (u32_arg Hash) (enumerator K4) ;;
  Some Hash1.

(** [MurmurHash32Impl<Hash, Length, A, B, C>]: enumerator [Hash1]. *)
Definition MurmurHash32Impl_tail3 (Hash A B C : Z) : option Z :=
  enum K0 := c_xor (literal 0) (c_shl (char_arg C) 16) ;;
  enum K1 := c_xor (enumerator K0) (c_shl (char_arg B) 8) ;;
  enum K2 := c_xor (enumerator K1) (char_arg A) ;;
  enum K3 := c_mul (enumerator K2) (literal C1) ;;
  enum K4 := rotate_idiom K3 R1 ;;
  enum K5 := c_mul (enumerator K4) (literal C2) ;;
  enum Hash1 := c_xor (u32_arg Hash) (enumerator K5) ;;
  Some Hash1.

(** [MurmurHash32Impl<Hash, Length, A, B, C, D, Tail...>]: enumerator
    [Hash3]. *)
Definition MurmurHash32Impl_block (Hash A B C D : Z) : option Z :=
  enum K0 := c_or (c_or (c_or (c_shl (char_arg D) 24) (c_shl (char_arg C) 16))
                        (c_shl (char_arg B) 8)) (char_arg A) ;;
  enum K1 := c_mul (enumerator K0) (literal C1) ;;
  enum K2 := rotate_idiom K1 R1 ;;
  enum K3 := c_mul (enumerator K2) (literal C2) ;;
  enum Hash1 := c_xor (u32_arg Hash) (enumerator K3) ;;
  enum Hash2 := rotate_idiom Hash1 R2 ;;
  enum Hash3 := c_add (c_mul (enumerator Hash2) (literal M)) (literal N) ;;
  Some Hash3.

(** An instantiation [MurmurHash32Impl<Hash, Length, Args...>]. *)
Record instance : Type := Inst {
  inst_Hash : Z;
  inst_Length : Z;
  inst_Args : list Z
}.

(** What the specialisation selected for an instantiation comes to: it is
    the final one and gives its [value], or its [value] is that of another
    instantiation, or one of its enumerators is ill-formed. *)
Inductive outcome : Type :=
| Value (v : Z)
| Next (j : instance)
| IllFormed.

Definition next_of (Hash1 : option Z) (Length : Z) (Tail : list Z) : outcome :=
  match Hash1 with
  | Some h => Next (Inst h Length Tail)
  | None => IllFormed
  end.

Definition next (i : instance) : outcome :=
  match i with
  | Inst Hash Length [] =>
      Value (MurmurHash32Impl_final Hash Length)
  | Inst Hash Length [A] =>
      next_of (MurmurHash32Impl_tail1 Hash A) (add32 Length 1) []
  | Inst Hash Length [A; B] =>
      next_of (MurmurHash32Impl_tail2 Hash A B) (add32 Length 2) []
  | Inst Hash Length [A; B; C] =>
      next_of (MurmurHash32Impl_tail3 Hash A B C) (add32 Length 3) []
  | Inst Hash Length (A :: B :: C :: D :: Tail) =>
      next_of (MurmurHash32Impl_block Hash A B C D) (add32 Length 4) Tail
  end.

(** [MurmurHash32Impl<Hash, Length, Args...>::value], by recursion on the
    argument pack; [None] when an instantiation of the chain is
    ill-formed. *)
Fixpoint MurmurHash32Impl (Args : list Z) (Hash Length : Z) {struct Args}
  : option Z :=
  match Args with
  | [] => Some (MurmurHash32Impl_final Hash Length)
  | [A] =>
      match MurmurHash32Impl_tail1 Hash A with
      | Some Hash1 => Some (MurmurHash32Impl_final Hash1 (add32 Length 1))
      | None => None
      end
  | [A; B] =>
      match MurmurHash32Impl_tail2 Hash A B with
      | Some Hash1 => Some (MurmurHash32Impl_final Hash1 (add32 Length 2))
      | None => None
      end
  | [A; B; C] =>
      match MurmurHash32Impl_tail3 Hash A B C with
      | Some Hash1 => Some (MurmurHash32Impl_final Hash1 (add32 Length 3))
      | None => None
      end
  | A :: B :: C :: D :: Tail =>
      match MurmurHash32Impl_block Hash A B C D with
      | Some Hash3 => MurmurHash32Impl Tail Hash3 (add32 Length 4)
      | None => None
      end
  end.

(** [MurmurHash32<Seed, Chars...>::value]. *)
Definition MurmurHash32 (Seed : Z) (Chars : list Z) : option Z :=
  MurmurHash32Impl Chars Seed 0.

(** The instantiation that selects the final specialisation, when the chain
    gets there. *)
Fixpoint final_instance (Args : list Z) (Hash Length : Z) {struct Args}
  : option instance :=
  match Args with
  | [] => Some (Inst Hash Length [])
  | [A] =>
      option_map (fun h => Inst h (add32 Length 1) [])
                 (MurmurHash32Impl_tail1 Hash A)
  | [A; B] =>
      option_map (fun h => Inst h (add32 Length 2) [])
                 (MurmurHash32Impl_tail2 Hash A B)
  | [A; B; C] =>
      option_map (fun h => Inst h (add32 Length 3) [])
                 (MurmurHash32Impl_tail3 Hash A B C)
  | A :: B :: C :: D :: Tail =>
      match MurmurHash32Impl_block Hash A B C D with
      | Some Hash3 => final_instance Tail Hash3 (add32 Length 4)
      | None => None
      end
  end.

(** How following the chain of instantiations ends. *)
Inductive chased : Type :=
| Digest (v : Z)
| Rejected
| OutOfFuel.

(** Following the chain for at most [fuel] instantiations. *)
Fixpoint chase (fuel : nat) (i : instance) : chased :=
  match fuel with
  | O => OutOfFuel
  | S fuel' =>
      match next i with
      | Value v => Digest v
      | Next j => chase fuel' j
      | IllFormed => Rejected
      end
  end.

(** The number of instantiations of [MurmurHash32Impl] a pack gives rise to
    when none is ill-formed. *)
Fixpoint instantiations (Args : list Z) : nat :=
  match Args with
  | [] => 1
  | [_] | [_; _] | [_; _; _] => 2
  | _ :: _ :: _ :: _ :: Tail => S (instantiations Tail)
  end.

(** Binding a template argument list to [template<std::uint32_t Seed,
    char... Chars>]: the first argument is converted to [Seed], the others to
    [char]s (a narrowing conversion is ill-formed); [Seed] has no default
    argument, so the empty list is ill-formed. *)
Definition MurmurHash32_args (char_signed : bool) (args : list Z) : option Z :=
  match args with
  | [] => None
  | Seed :: Chars =>
      if (0 <=? Seed) && (Seed <? modulus) && forallb (is_char char_signed) Chars
      then MurmurHash32 Seed Chars
      else None
  end.

(** The digest the header gives a byte sequence on a host: each byte is read
    as a plain [char]. *)
Definition digest_of_bytes (char_signed : bool) (bs : list Z) (Seed : Z)
  : option Z :=
  MurmurHash32_args char_signed (Seed :: map (char_of_byte char_signed) bs).

(** ** The same steps in arithmetic modulo 2^32

    The pseudo-code in the comment at the head of the file asks for unsigned
    32 bit arithmetic throughout.  These are the steps of the specialisations
    with every operation taken modulo 2^32; an instantiation that is
    well-formed has these values. *)

Definition wrap_tail1 (Hash A : Z) : Z :=
  let K0 := Z.lxor 0x00000000 A in
  let K1 := mul32 K0 C1 in
  let K2 := Z.lor (shl32 K1 R1) (shr32 K1 (32 - R1)) in
  let K3 := mul32 K2 C2 in
  let Hash1 := Z.lxor Hash K3 in
  Hash1.

Definition wrap_tail2 (Hash A B : Z) : Z :=
  let K0 := Z.lxor 0x00000000 (to_i32 (Z.shiftl B 8)) in
  let K1 := Z.lxor K0 A in
  let K2 := mul32 K1 C1 in
  let K3 := Z.lor (shl32 K2 R1) (shr32 K2 (32 - R1)) in
  let K4 := mul32 K3 C2 in
  let Hash1 := Z.lxor Hash K4 in
  Hash1.

Definition wrap_tail3 (Hash A B C : Z) : Z :=
  let K0 := Z.lxor 0 (to_i32 (Z.shiftl C 16)) in
  let K1 := Z.lxor K0 (to_i32 (Z.shiftl B 8)) in
  let K2 := Z.lxor K1 A in
  let K3 := mul32 K2 C1 in
  let K4 := Z.lor (shl32 K3 R1) (shr32 K3 (32 - R1)) in
  let K5 := mul32 K4 C2 in
  let Hash1 := Z.lxor Hash K5 in
  Hash1.

Definition wrap_block (Hash A B C D : Z) : Z :=
  let K0 := Z.lor (Z.lor (Z.lor (to_i32 (Z.shiftl D 24))
                                (to_i32 (Z.shiftl C 16)))
                         (to_i32 (Z.shiftl B 8))) A in
  let K1 := mul32 K0 C1 in
  let K2 := Z.lor (shl32 K1 R1) (shr32 K1 (32 - R1)) in
  let K3 := mul32 K2 C2 in
  let Hash1 := Z.lxor Hash K3 in
  let Hash2 := Z.lor (shl32 Hash1 R2) (shr32 Hash1 (32 - R2)) in
  let Hash3 := add32 (mul32 Hash2 M) N in
  Hash3.

Fixpoint wrap_Impl (Args : list Z) (Hash Length : Z) {struct Args} : Z :=
  match Args with
  | [] => MurmurHash32Impl_final Hash Length
  | [A] => MurmurHash32Impl_final (wrap_tail1 Hash A) (add32 Length 1)
  | [A; B] => MurmurHash32Impl_final (wrap_tail2 Hash A B) (add32 Length 2)
  | [A; B; C] => MurmurHash32Impl_final (wrap_tail3 Hash A B C) (add32 Length 3)
  | A :: B :: C :: D :: Tail =>
      wrap_Impl Tail (wrap_block Hash A B C D) (add32 Length 4)
  end.

Definition wrap_hash (Seed : Z) (Chars : list Z) : Z := wrap_Impl Chars Seed 0.

Fixpoint wrap_final_instance (Args : list Z) (Hash Length : Z) {struct Args}
  : instance :=
  match Args with
  | [] => Inst Hash Length []
  | [A] => Inst (wrap_tail1 Hash A) (add32 Length 1) []
  | [A; B] => Inst (wrap_tail2 Hash A B) (add32 Length 2) []
  | [A; B; C] => Inst (wrap_tail3 Hash A B C) (add32 Length 3) []
  | A :: B :: C :: D :: Tail =>
      wrap_final_instance Tail (wrap_block Hash A B C D) (add32 Length 4)
  end.

(** ** The algorithm in the words of the specification *)

Module Spec.

(** Logical (zero-fill) right shift of the 32-bit word of [x]. *)
Definition lsr (x r : Z) : Z := (x mod 2 ^ 32) / 2 ^ r.

(** Rotate-left by [r] on a 32-bit word: [(x << r) | (x >> (32 - r))]. *)
Definition rotate_left (x r : Z) : Z :=
  Z.lor ((x * 2 ^ r) mod 2 ^ 32) (lsr x (32 - r)).

(** The scrambling of a word [k] shared by blocks and tail. *)
Definition scramble (k : Z) : Z :=
  let k := (k * 0xcc9e2d51) mod 2 ^ 32 in
  let k := rotate_left k 15 in
  let k := (k * 0x1b873593) mod 2 ^ 32 in
  k.

(** Little-endian word of a 4-byte chunk. *)
Definition word_of_chunk (b0 b1 b2 b3 : Z) : Z :=
  Z.lor (Z.lor (Z.lor b0 (Z.shiftl b1 8)) (Z.shiftl b2 16)) (Z.shiftl b3 24).

(** Block processor, one chunk whose word is [k]. *)
Definition block (hash k : Z) : Z :=
  let k := scramble k in
  let hash := Z.lxor hash k in
  let hash := rotate_left hash 13 in
  (hash * 5 + 0xe6546b64) mod 2 ^ 32.

(** Partial word of the 1, 2 or 3 trailing bytes. *)
Definition word_of_tail (bs : list Z) : Z :=
  match bs with
  | [b0] => b0
  | [b0; b1] => Z.lor b0 (Z.shiftl b1 8)
  | [b0; b1; b2] => Z.lor (Z.lor b0 (Z.shiftl b1 8)) (Z.shiftl b2 16)
  | _ => 0
  end.

(** Tail processor. *)
Definition tail (hash : Z) (bs : list Z) : Z :=
  match bs with
  | [] => hash
  | _ => Z.lxor hash (scramble (word_of_tail bs))
  end.

(** The avalanche of the finalizer (the steps after the length is XORed
    in). *)
Definition avalanche (h : Z) : Z :=
  let h := Z.lxor h (lsr h 16) in
  let h := (h * 0x85ebca6b) mod 2 ^ 32 in
  let h := Z.lxor h (lsr h 13) in
  let h := (h * 0xc2b2ae35) mod 2 ^ 32 in
  let h := Z.lxor h (lsr h 16) in
  h.

(** Finalizer. *)
Definition finalize (hash length : Z) : Z :=
  avalanche (Z.lxor hash length).

(** Block processor followed by tail processor, over a byte sequence. *)
Fixpoint accumulate (bs : list Z) (hash : Z) {struct bs} : Z :=
  match bs with
  | b0 :: b1 :: b2 :: b3 :: rest =>
      accumulate rest (block hash (word_of_chunk b0 b1 b2 b3))
  | _ => tail hash bs
  end.

(** [hash32(bytes, seed)]. *)
Definition hash32 (bs : list Z) (seed : Z) : Z :=
  finalize (accumulate bs seed) (Z.of_nat (length bs) mod 2 ^ 32).

End Spec.

(** ** The steps of the avalanche and their inverses *)

(** [x ^ (x >> r)] and [x * c] on 32-bit words. *)
Definition xorshift (r x : Z) : Z := Z.lxor x (Z.shiftr x r).
Definition mulc (c x : Z) : Z := (x * c) mod 2 ^ 32.

(** Undoing [xorshift 13]: the shifted copies are folded back twice. *)
Definition unxorshift13 (x : Z) : Z :=
  Z.lxor (Z.lxor x (Z.shiftr x 13)) (Z.shiftr x 26).

(** The candidate inverse of the avalanche: the steps undone in reverse
    order, with the inverses of the two multipliers modulo 2^32. *)
Definition unavalanche (d : Z) : Z :=
  xorshift 16
    (mulc 0xa5cb9243 (unxorshift13 (mulc 0x7ed1b41d (xorshift 16 d)))).

(** A pack whose arguments are all non-negative: there a [char] is its
    byte. *)
Definition is_byte (c : Z) : Prop := 0 <= c < 256.

(** * Properties *)

(** ** Arithmetic on 32-bit words *)

Section Word32Facts.

Lemma modulus_pos : 0 < modulus.
Proof. reflexivity. Qed.

Lemma to_u32_range x : in_u32 (to_u32 x).
Proof. apply Z.mod_pos_bound, modulus_pos. Qed.

Lemma to_u32_id x : in_u32 x -> to_u32 x = x.
Proof. intros H. apply Z.mod_small, H. Qed.

Lemma to_u32_idem x : to_u32 (to_u32 x) = to_u32 x.
Proof. apply to_u32_id, to_u32_range. Qed.

Lemma to_u32_land x : to_u32 x = Z.land x (Z.ones 32).
Proof. unfold to_u32, modulus. now rewrite Z.land_ones by lia. Qed.

Lemma to_u32_lor a b : to_u32 (Z.lor a b) = Z.lor (to_u32 a) (to_u32 b).
Proof. rewrite !to_u32_land. apply Z.land_lor_distr_l. Qed.

Lemma to_u32_lxor a b : to_u32 (Z.lxor a b) = Z.lxor (to_u32 a) (to_u32 b).
Proof.
  rewrite !to_u32_land. apply Z.bits_inj'. intros n _.
  rewrite Z.lxor_spec, !Z.land_spec, Z.lxor_spec.
  now destruct (Z.testbit a n), (Z.testbit b n), (Z.testbit (Z.ones 32) n).
Qed.

Lemma to_u32_to_i32 x : to_u32 (to_i32 x) = to_u32 x.
Proof.
  unfold to_u32, to_i32.
  rewrite Zminus_mod, Zmod_mod, <- Zminus_mod. f_equal. lia.
Qed.

Lemma lxor_in_u32 a b : in_u32 a -> in_u32 b -> in_u32 (Z.lxor a b).
Proof.
  intros Ha Hb.
  rewrite <- (to_u32_id a Ha), <- (to_u32_id b Hb), <- to_u32_lxor.
  apply to_u32_range.
Qed.

Lemma lor_in_u32 a b : in_u32 a -> in_u32 b -> in_u32 (Z.lor a b).
Proof.
  intros Ha Hb.
  rewrite <- (to_u32_id a Ha), <- (to_u32_id b Hb), <- to_u32_lor.
  apply to_u32_range.
Qed.

Lemma div_pow2_in_u32 x r : 0 <= r -> in_u32 x -> in_u32 (x / 2 ^ r).
Proof.
  intros Hr [H0 H1]. unfold in_u32.
  assert (0 < 2 ^ r) by (apply Z.pow_pos_nonneg; lia).
  split.
  - apply Z.div_pos; lia.
  - apply Z.le_lt_trans with x; [ apply Z.div_le_upper_bound; nia | lia ].
Qed.

Lemma mul32_mod a b : mul32 a b = (a * b) mod 2 ^ 32.
Proof. unfold mul32, to_u32, modulus. now rewrite <- Zmult_mod. Qed.

Lemma add32_mod a b : add32 a b = (a + b) mod 2 ^ 32.
Proof. unfold add32, to_u32, modulus. now rewrite <- Zplus_mod. Qed.

Lemma mul32_to_u32_l a b : mul32 a b = (to_u32 a * b) mod 2 ^ 32.
Proof.
  rewrite mul32_mod. unfold to_u32, modulus.
  now rewrite Zmult_mod_idemp_l.
Qed.

Lemma shr32_div x r : 0 <= r -> shr32 x r = x / 2 ^ r.
Proof. intros. unfold shr32. now apply Z.shiftr_div_pow2. Qed.

Lemma shr32_lsr x r : in_u32 x -> 0 <= r -> shr32 x r = Spec.lsr x r.
Proof.
  intros Hx Hr. rewrite shr32_div by exact Hr. unfold Spec.lsr.
  now rewrite (Z.mod_small x) by exact Hx.
Qed.

Lemma mul32_in_u32 a b : in_u32 (mul32 a b).
Proof. apply to_u32_range. Qed.

Lemma add32_in_u32 a b : in_u32 (add32 a b).
Proof. apply to_u32_range. Qed.

Lemma shl32_mod x r : 0 <= r -> shl32 x r = (x * 2 ^ r) mod 2 ^ 32.
Proof. intros. unfold shl32, to_u32, modulus. now rewrite Z.shiftl_mul_pow2. Qed.

End Word32Facts.

(** ** Words assembled from bytes *)

Section Bytes.

Lemma byte_high_bits a n : is_byte a -> 8 <= n -> Z.testbit a n = false.
Proof.
  intros [H0 H1] Hn.
  destruct (Z.eq_dec a 0) as [-> | Hne]; [ apply Z.bits_0 | ].
  apply Z.bits_above_log2; [ lia | ].
  apply Z.lt_le_trans with 8; [ | lia ].
  apply Z.log2_lt_pow2; [ lia | exact H1 ].
Qed.

Lemma shifted_low_bits b s n : 0 <= n < s -> Z.testbit (Z.shiftl b s) n = false.
Proof.
  intros H. rewrite Z.shiftl_spec by lia. apply Z.testbit_neg_r. lia.
Qed.

Lemma shifted_byte_high_bits b s n :
  is_byte b -> 0 <= s -> s + 8 <= n -> Z.testbit (Z.shiftl b s) n = false.
Proof.
  intros Hb Hs Hn. rewrite Z.shiftl_spec by lia.
  apply byte_high_bits; [ exact Hb | lia ].
Qed.

Lemma shifted_byte_in_u32 b s :
  is_byte b -> 0 <= s <= 24 -> in_u32 (Z.shiftl b s).
Proof.
  intros [H0 H1] Hs. unfold in_u32, modulus.
  rewrite Z.shiftl_mul_pow2 by lia.
  assert (0 < 2 ^ s) by (apply Z.pow_pos_nonneg; lia).
  assert (2 ^ s <= 2 ^ 24) by (apply Z.pow_le_mono_r; lia).
  change (2 ^ 24) with 16777216 in *. change (2 ^ 32) with 4294967296.
  nia.
Qed.

Lemma byte_in_u32 b : is_byte b -> in_u32 b.
Proof. unfold is_byte, in_u32, modulus. change (2 ^ 32) with 4294967296. lia. Qed.

Lemma to_u32_shifted_char b s :
  is_byte b -> 0 <= s <= 24 -> to_u32 (to_i32 (Z.shiftl b s)) = Z.shiftl b s.
Proof.
  intros. rewrite to_u32_to_i32. now apply to_u32_id, shifted_byte_in_u32.
Qed.

(** The word [K0] of a full block, converted to [unsigned int]. *)
Lemma block_word_bytes A B C D :
  is_byte A -> is_byte B -> is_byte C -> is_byte D ->
  to_u32 (Z.lor (Z.lor (Z.lor (to_i32 (Z.shiftl D 24))
                              (to_i32 (Z.shiftl C 16)))
                       (to_i32 (Z.shiftl B 8))) A)
  = Spec.word_of_chunk A B C D.
Proof.
  intros HA HB HC HD. unfold Spec.word_of_chunk.
  rewrite !to_u32_lor, !to_u32_shifted_char by (assumption || lia).
  rewrite (to_u32_id A) by now apply byte_in_u32.
  apply Z.bits_inj'. intros n _. rewrite !Z.lor_spec.
  now destruct (Z.testbit A n), (Z.testbit (Z.shiftl B 8) n),
    (Z.testbit (Z.shiftl C 16) n), (Z.testbit (Z.shiftl D 24) n).
Qed.

(** XOR of bytes placed at distinct positions is their OR. *)
Lemma lxor_lor_byte a b s :
  is_byte b -> 0 <= s -> (forall n, s <= n -> Z.testbit a n = false) ->
  Z.lxor a (Z.shiftl b s) = Z.lor a (Z.shiftl b s).
Proof.
  intros Hb Hs Ha. apply Z.bits_inj'. intros n Hn.
  rewrite Z.lxor_spec, Z.lor_spec.
  destruct (Z_lt_le_dec n s) as [Hlt | Hge].
  - rewrite (shifted_low_bits b s n) by lia.
    now destruct (Z.testbit a n).
  - rewrite (Ha n Hge). reflexivity.
Qed.

Lemma tail1_word_bytes A :
  is_byte A -> to_u32 (Z.lxor 0x00000000 A) = Spec.word_of_tail [A].
Proof.
  intros HA. rewrite Z.lxor_0_l. now apply to_u32_id, byte_in_u32.
Qed.

Lemma tail2_word_bytes A B :
  is_byte A -> is_byte B ->
  to_u32 (Z.lxor (Z.lxor 0x00000000 (to_i32 (Z.shiftl B 8))) A)
  = Spec.word_of_tail [A; B].
Proof.
  intros HA HB. cbn [Spec.word_of_tail].
  rewrite Z.lxor_0_l, to_u32_lxor, to_u32_shifted_char by (assumption || lia).
  rewrite (to_u32_id A) by now apply byte_in_u32.
  rewrite Z.lxor_comm. apply lxor_lor_byte; [ assumption | lia | ].
  intros n Hn. now apply byte_high_bits.
Qed.

Lemma tail3_word_bytes A B C :
  is_byte A -> is_byte B -> is_byte C ->
  to_u32 (Z.lxor (Z.lxor (Z.lxor 0 (to_i32 (Z.shiftl C 16)))
                         (to_i32 (Z.shiftl B 8))) A)
  = Spec.word_of_tail [A; B; C].
Proof.
  intros HA HB HC. cbn [Spec.word_of_tail].
  rewrite Z.lxor_0_l, !to_u32_lxor, !to_u32_shifted_char
    by (assumption || lia).
  rewrite (to_u32_id A) by now apply byte_in_u32.
  rewrite (Z.lxor_comm _ A), (Z.lxor_comm _ (Z.shiftl B 8)), <- Z.lxor_assoc.
  rewrite (lxor_lor_byte A B 8); [ | assumption | lia | ].
  - apply lxor_lor_byte; [ assumption | lia | ].
    intros n Hn. rewrite Z.lor_spec.
    rewrite (byte_high_bits A n), (shifted_byte_high_bits B 8 n)
      by (assumption || lia).
    reflexivity.
  - intros n Hn. now apply byte_high_bits.
Qed.

End Bytes.

(** ** The steps in arithmetic modulo 2^32 against the stages of Murmur3_32 *)

Section Refinement.

(** Induction over argument packs the way the specialisations split
    them. *)
Lemma pack_ind (P : list Z -> Prop) :
  P [] ->
  (forall A, P [A]) ->
  (forall A B, P [A; B]) ->
  (forall A B C, P [A; B; C]) ->
  (forall A B C D Tail, P Tail -> P (A :: B :: C :: D :: Tail)) ->
  forall Args, P Args.
Proof.
  intros H0 H1 H2 H3 H4.
  fix IH 1.
  intros [ | A [ | B [ | C [ | D Tail ] ] ] ].
  - exact H0.
  - apply H1.
  - apply H2.
  - apply H3.
  - apply H4, IH.
Qed.

Lemma rotate_refines x r :
  in_u32 x -> 0 <= r <= 32 ->
  Z.lor (shl32 x r) (shr32 x (32 - r)) = Spec.rotate_left x r.
Proof.
  intros Hx Hr. unfold Spec.rotate_left.
  now rewrite shl32_mod, shr32_lsr by (assumption || lia).
Qed.

Lemma scramble_refines K0 :
  mul32 (Z.lor (shl32 (mul32 K0 C1) R1) (shr32 (mul32 K0 C1) (32 - R1))) C2
  = Spec.scramble (to_u32 K0).
Proof.
  unfold Spec.scramble.
  rewrite rotate_refines by (apply mul32_in_u32 || (unfold R1; lia)).
  rewrite mul32_mod, mul32_to_u32_l. reflexivity.
Qed.

Lemma tail1_refines Hash A :
  wrap_tail1 Hash A
  = Z.lxor Hash (Spec.scramble (to_u32 (Z.lxor 0x00000000 A))).
Proof. unfold wrap_tail1. cbv zeta. now rewrite scramble_refines. Qed.

Lemma tail2_refines Hash A B :
  wrap_tail2 Hash A B
  = Z.lxor Hash
      (Spec.scramble
         (to_u32 (Z.lxor (Z.lxor 0x00000000 (to_i32 (Z.shiftl B 8))) A))).
Proof. unfold wrap_tail2. cbv zeta. now rewrite scramble_refines. Qed.

Lemma tail3_refines Hash A B C :
  wrap_tail3 Hash A B C
  = Z.lxor Hash
      (Spec.scramble
         (to_u32 (Z.lxor (Z.lxor (Z.lxor 0 (to_i32 (Z.shiftl C 16)))
                                 (to_i32 (Z.shiftl B 8))) A))).
Proof. unfold wrap_tail3. cbv zeta. now rewrite scramble_refines. Qed.

Lemma block_refines Hash A B C D :
  in_u32 Hash ->
  wrap_block Hash A B C D
  = Spec.block Hash
      (to_u32 (Z.lor (Z.lor (Z.lor (to_i32 (Z.shiftl D 24))
                                   (to_i32 (Z.shiftl C 16)))
                            (to_i32 (Z.shiftl B 8))) A)).
Proof.
  intros HH. unfold wrap_block, Spec.block. cbv zeta.
  rewrite scramble_refines.
  rewrite rotate_refines; [ | | unfold R2; lia ].
  2: { apply lxor_in_u32; [ exact HH | ].
       unfold Spec.scramble. apply Z.mod_pos_bound. reflexivity. }
  rewrite add32_mod, mul32_mod. unfold M, N, R2.
  now rewrite Zplus_mod_idemp_l.
Qed.

Lemma final_refines Hash Length :
  in_u32 Hash -> in_u32 Length ->
  MurmurHash32Impl_final Hash Length = Spec.finalize Hash Length.
Proof.
  intros HH HL.
  unfold MurmurHash32Impl_final, Spec.finalize, Spec.avalanche. cbv zeta.
  rewrite (shr32_lsr (Z.lxor Hash Length)) by (now apply lxor_in_u32 || lia).
  rewrite !shr32_lsr by (apply mul32_in_u32 || lia).
  now rewrite !mul32_mod.
Qed.

Lemma final_in_u32 Hash Length : in_u32 (MurmurHash32Impl_final Hash Length).
Proof.
  unfold MurmurHash32Impl_final. cbv zeta.
  set (Hash5 := mul32 _ 0xc2b2ae35).
  assert (H5 : in_u32 Hash5) by apply to_u32_range.
  apply lxor_in_u32; [ exact H5 | ].
  rewrite shr32_div by lia. now apply div_pow2_in_u32.
Qed.

(** In arithmetic modulo 2^32 the value is the final specialisation applied
    to the last accumulator and length. *)
Lemma wrap_value_of_final_instance Args : forall Hash Length,
  wrap_Impl Args Hash Length
  = MurmurHash32Impl_final (inst_Hash (wrap_final_instance Args Hash Length))
                           (inst_Length (wrap_final_instance Args Hash Length)).
Proof.
  induction Args as [ | A | A B | A B C | A B C D Tail IH ] using pack_ind;
    intros Hash Length; try reflexivity.
  cbn [wrap_Impl wrap_final_instance]. apply IH.
Qed.

Lemma add32_to_u32_l a b : add32 (to_u32 a) b = to_u32 (a + b).
Proof.
  rewrite add32_mod. unfold to_u32, modulus. now rewrite Zplus_mod_idemp_l.
Qed.

(** The [Length] argument counts the arguments consumed, modulo 2^32. *)
Lemma wrap_final_instance_Length Args : forall Hash Length,
  inst_Length (wrap_final_instance Args Hash (to_u32 Length))
  = to_u32 (Length + Z.of_nat (length Args)).
Proof.
  induction Args as [ | A | A B | A B C | A B C D Tail IH ] using pack_ind;
    intros Hash Length; cbn [wrap_final_instance inst_Length length].
  - now rewrite Z.add_0_r.
  - now rewrite add32_to_u32_l.
  - now rewrite add32_to_u32_l.
  - now rewrite add32_to_u32_l.
  - rewrite add32_to_u32_l, IH. f_equal. lia.
Qed.

Lemma tail1_in_u32 Hash A :
  in_u32 Hash -> in_u32 (wrap_tail1 Hash A).
Proof. intros. apply lxor_in_u32; [ assumption | apply mul32_in_u32 ]. Qed.

Lemma tail2_in_u32 Hash A B :
  in_u32 Hash -> in_u32 (wrap_tail2 Hash A B).
Proof. intros. apply lxor_in_u32; [ assumption | apply mul32_in_u32 ]. Qed.

Lemma tail3_in_u32 Hash A B C :
  in_u32 Hash -> in_u32 (wrap_tail3 Hash A B C).
Proof. intros. apply lxor_in_u32; [ assumption | apply mul32_in_u32 ]. Qed.

Lemma block_in_u32 Hash A B C D : in_u32 (wrap_block Hash A B C D).
Proof. apply add32_in_u32. Qed.

(** The accumulator stays a 32-bit word from step to step. *)
Lemma wrap_final_instance_Hash_in_u32 Args : forall Hash Length,
  in_u32 Hash -> in_u32 (inst_Hash (wrap_final_instance Args Hash Length)).
Proof.
  induction Args as [ | A | A B | A B C | A B C D Tail IH ] using pack_ind;
    intros Hash Length HH; cbn [wrap_final_instance inst_Hash].
  - exact HH.
  - now apply tail1_in_u32.
  - now apply tail2_in_u32.
  - now apply tail3_in_u32.
  - apply IH, block_in_u32.
Qed.

(** On non-negative arguments the last accumulator of arithmetic modulo
    2^32 is the one the block and tail processors produce. *)
Lemma wrap_final_instance_Hash_bytes Args : forall Hash Length,
  in_u32 Hash ->
  Forall is_byte Args ->
  inst_Hash (wrap_final_instance Args Hash Length) = Spec.accumulate Args Hash.
Proof.
  induction Args as [ | A | A B | A B C | A B C D Tail IH ] using pack_ind;
    intros Hash Length HH HF;
    cbn [wrap_final_instance inst_Hash Spec.accumulate].
  - reflexivity.
  - inversion_clear HF as [ | ? ? HA _ ].
    rewrite tail1_refines, tail1_word_bytes by assumption. reflexivity.
  - inversion_clear HF as [ | ? ? HA HF' ].
    inversion_clear HF' as [ | ? ? HB _ ].
    rewrite tail2_refines, tail2_word_bytes by assumption. reflexivity.
  - inversion_clear HF as [ | ? ? HA HF' ].
    inversion_clear HF' as [ | ? ? HB HF'' ].
    inversion_clear HF'' as [ | ? ? HC _ ].
    rewrite tail3_refines, tail3_word_bytes by assumption. reflexivity.
  - inversion_clear HF as [ | ? ? HA HF' ].
    inversion_clear HF' as [ | ? ? HB HF'' ].
    inversion_clear HF'' as [ | ? ? HC HF' ].
    inversion_clear HF' as [ | ? ? HD HT ].
    rewrite <- (block_word_bytes A B C D), <- block_refines by assumption.
    apply IH; [ apply block_in_u32 | exact HT ].
Qed.

(** On non-negative arguments the steps in arithmetic modulo 2^32 compute
    [hash32]. *)
Lemma wrap_hash_refines_bytes Seed Chars :
  in_u32 Seed ->
  Forall is_byte Chars ->
  wrap_hash Seed Chars = Spec.hash32 Chars Seed.
Proof.
  intros HS HF. unfold wrap_hash, Spec.hash32.
  rewrite wrap_value_of_final_instance.
  change 0 with (to_u32 0) at 1 2.
  rewrite wrap_final_instance_Length.
  rewrite final_refines;
    [ | now apply wrap_final_instance_Hash_in_u32 | apply to_u32_range ].
  now rewrite (wrap_final_instance_Hash_bytes Chars Seed (to_u32 0) HS HF).
Qed.

End Refinement.

(** ** The avalanche is a permutation of the 32-bit words *)

Section Avalanche.

Lemma shiftr_in_u32 x r : in_u32 x -> 0 <= r -> in_u32 (Z.shiftr x r).
Proof.
  intros Hx Hr. rewrite Z.shiftr_div_pow2 by exact Hr.
  now apply div_pow2_in_u32.
Qed.

Lemma shiftr_u32_32 x r : in_u32 x -> 32 <= r -> Z.shiftr x r = 0.
Proof.
  intros [H0 H1] Hr. rewrite Z.shiftr_div_pow2 by lia.
  apply Z.div_small. split; [ exact H0 | ].
  apply Z.lt_le_trans with (2 ^ 32); [ exact H1 | ].
  apply Z.pow_le_mono_r; lia.
Qed.

Lemma xorshift_in_u32 r x : 0 <= r -> in_u32 x -> in_u32 (xorshift r x).
Proof.
  intros Hr Hx. apply lxor_in_u32; [ exact Hx | now apply shiftr_in_u32 ].
Qed.

Lemma mulc_in_u32 c x : in_u32 (mulc c x).
Proof. apply Z.mod_pos_bound. reflexivity. Qed.

Lemma unxorshift13_in_u32 x : in_u32 x -> in_u32 (unxorshift13 x).
Proof.
  intros Hx. unfold unxorshift13.
  repeat apply lxor_in_u32; try assumption; apply shiftr_in_u32; (assumption || lia).
Qed.

(** [x ^= x >> 16] is its own inverse on 32-bit words. *)
Lemma xorshift16_involutive x : in_u32 x -> xorshift 16 (xorshift 16 x) = x.
Proof.
  intros Hx. unfold xorshift.
  rewrite Z.shiftr_lxor, Z.shiftr_shiftr by lia.
  rewrite (shiftr_u32_32 x (16 + 16)) by (assumption || lia).
  rewrite Z.lxor_0_r, Z.lxor_assoc, Z.lxor_nilpotent. apply Z.lxor_0_r.
Qed.

Lemma unxorshift13_xorshift13 x : in_u32 x -> unxorshift13 (xorshift 13 x) = x.
Proof.
  intros Hx. unfold unxorshift13, xorshift.
  rewrite !Z.shiftr_lxor, !Z.shiftr_shiftr by lia.
  rewrite (shiftr_u32_32 x (13 + 26)) by (assumption || lia).
  change (13 + 13) with 26.
  apply Z.bits_inj'. intros n _. rewrite !Z.lxor_spec, Z.bits_0.
  now destruct (Z.testbit x n), (Z.testbit (Z.shiftr x 13) n),
    (Z.testbit (Z.shiftr x 26) n).
Qed.

Lemma xorshift13_unxorshift13 x : in_u32 x -> xorshift 13 (unxorshift13 x) = x.
Proof.
  intros Hx. unfold unxorshift13, xorshift.
  rewrite !Z.shiftr_lxor, !Z.shiftr_shiftr by lia.
  rewrite (shiftr_u32_32 x (26 + 13)) by (assumption || lia).
  change (13 + 13) with 26.
  apply Z.bits_inj'. intros n _. rewrite !Z.lxor_spec, Z.bits_0.
  now destruct (Z.testbit x n), (Z.testbit (Z.shiftr x 13) n),
    (Z.testbit (Z.shiftr x 26) n).
Qed.

(** Multiplication by a unit of the ring of 32-bit words is undone by
    multiplication by its inverse. *)
Lemma mulc_inverse c d x :
  (c * d) mod 2 ^ 32 = 1 -> in_u32 x -> mulc d (mulc c x) = x.
Proof.
  intros Hcd Hx. unfold mulc.
  rewrite Zmult_mod_idemp_l, <- Z.mul_assoc, <- Zmult_mod_idemp_r, Hcd.
  rewrite Z.mul_1_r. apply Z.mod_small, Hx.
Qed.

(** The final specialisation as a chain of steps. *)
Lemma final_steps Hash Length :
  MurmurHash32Impl_final Hash Length
  = xorshift 16
      (mulc 0xc2b2ae35
         (xorshift 13 (mulc 0x85ebca6b (xorshift 16 (Z.lxor Hash Length))))).
Proof.
  unfold MurmurHash32Impl_final, xorshift, mulc, shr32. cbv zeta.
  now rewrite !mul32_mod.
Qed.

Lemma unavalanche_in_u32 d : in_u32 d -> in_u32 (unavalanche d).
Proof.
  intros Hd. unfold unavalanche.
  apply xorshift_in_u32; [ lia | apply mulc_in_u32 ].
Qed.

Lemma unavalanche_final Hash Length :
  in_u32 Hash -> in_u32 Length ->
  unavalanche (MurmurHash32Impl_final Hash Length) = Z.lxor Hash Length.
Proof.
  intros HH HL. rewrite final_steps. unfold unavalanche.
  assert (H1 : in_u32 (Z.lxor Hash Length)) by now apply lxor_in_u32.
  rewrite xorshift16_involutive by apply mulc_in_u32.
  rewrite (mulc_inverse 0xc2b2ae35 0x7ed1b41d)
    by (reflexivity || (apply xorshift_in_u32; [ lia | apply mulc_in_u32 ])).
  rewrite unxorshift13_xorshift13 by apply mulc_in_u32.
  rewrite (mulc_inverse 0x85ebca6b 0xa5cb9243)
    by (reflexivity || (apply xorshift_in_u32; [ lia | exact H1 ])).
  now apply xorshift16_involutive.
Qed.

Lemma final_unavalanche d Length :
  in_u32 d -> in_u32 Length ->
  MurmurHash32Impl_final (Z.lxor (unavalanche d) Length) Length = d.
Proof.
  intros Hd HL. rewrite final_steps.
  rewrite Z.lxor_assoc, Z.lxor_nilpotent, Z.lxor_0_r.
  unfold unavalanche.
  rewrite xorshift16_involutive by apply mulc_in_u32.
  rewrite (mulc_inverse 0xa5cb9243 0x85ebca6b)
    by (reflexivity || (apply unxorshift13_in_u32, mulc_in_u32)).
  rewrite xorshift13_unxorshift13 by apply mulc_in_u32.
  rewrite (mulc_inverse 0x7ed1b41d 0xc2b2ae35)
    by (reflexivity || (apply xorshift_in_u32; [ lia | exact Hd ])).
  now apply xorshift16_involutive.
Qed.

End Avalanche.

(** ** Bits of 32-bit words and of the rotation *)

Section Rotation.

Lemma u32_high_bits x n : in_u32 x -> 32 <= n -> Z.testbit x n = false.
Proof.
  intros Hx Hn. rewrite <- (to_u32_id x Hx). unfold to_u32, modulus.
  apply Z.mod_pow2_bits_high. lia.
Qed.

Lemma to_u32_low_bits x n : 0 <= n < 32 -> Z.testbit (to_u32 x) n = Z.testbit x n.
Proof.
  intros Hn. unfold to_u32, modulus. apply Z.mod_pow2_bits_low. lia.
Qed.

Lemma to_i32_low_bits x n : 0 <= n < 32 -> Z.testbit (to_i32 x) n = Z.testbit x n.
Proof.
  intros Hn.
  rewrite <- (to_u32_low_bits (to_i32 x)), to_u32_to_i32 by exact Hn.
  now apply to_u32_low_bits.
Qed.

Lemma rot_in_u32 x r :
  in_u32 x -> 0 <= r <= 32 -> in_u32 (Z.lor (shl32 x r) (shr32 x (32 - r))).
Proof.
  intros Hx Hr. apply lor_in_u32; [ apply to_u32_range | ].
  apply shiftr_in_u32; [ exact Hx | lia ].
Qed.

(** The low [r] bits of the rotation are the high [r] bits of the word. *)
Lemma rot_low_bits x r n :
  in_u32 x -> 0 < r < 32 -> 0 <= n < r ->
  Z.testbit (Z.lor (shl32 x r) (shr32 x (32 - r))) n
  = Z.testbit x (n + (32 - r)).
Proof.
  intros Hx Hr Hn. unfold shl32, shr32.
  rewrite Z.lor_spec, to_u32_low_bits, Z.shiftl_spec, Z.shiftr_spec by lia.
  now rewrite (Z.testbit_neg_r x (n - r)) by lia.
Qed.

(** The other bits are those of the word moved up by [r]. *)
Lemma rot_high_bits x r n :
  in_u32 x -> 0 < r < 32 -> r <= n < 32 ->
  Z.testbit (Z.lor (shl32 x r) (shr32 x (32 - r))) n = Z.testbit x (n - r).
Proof.
  intros Hx Hr Hn. unfold shl32, shr32.
  rewrite Z.lor_spec, to_u32_low_bits, Z.shiftl_spec, Z.shiftr_spec by lia.
  rewrite (u32_high_bits x (n + (32 - r))) by (assumption || lia).
  apply orb_false_r.
Qed.

Lemma rot_inj x y r :
  in_u32 x -> in_u32 y -> 0 < r < 32 ->
  Z.lor (shl32 x r) (shr32 x (32 - r)) = Z.lor (shl32 y r) (shr32 y (32 - r)) ->
  x = y.
Proof.
  intros Hx Hy Hr E. apply Z.bits_inj'. intros n Hn.
  destruct (Z_lt_le_dec n 32) as [Hlt | Hge].
  - destruct (Z_lt_le_dec n (32 - r)) as [Hlo | Hhi].
    + replace n with (n + r - r) by lia.
      rewrite <- !rot_high_bits by (assumption || lia). now rewrite E.
    + replace n with (n - (32 - r) + (32 - r)) by lia.
      rewrite <- !rot_low_bits by (assumption || lia). now rewrite E.
  - now rewrite !u32_high_bits by assumption.
Qed.

End Rotation.

(** ** Every mixing step is injective *)

Section Injectivity.

Lemma lxor_cancel_r a b c : Z.lxor a c = Z.lxor b c -> a = b.
Proof.
  intros E. apply (f_equal (fun v => Z.lxor v c)) in E.
  now rewrite !Z.lxor_assoc, Z.lxor_nilpotent, !Z.lxor_0_r in E.
Qed.

Lemma lxor_cancel_l a b c : Z.lxor c a = Z.lxor c b -> a = b.
Proof. rewrite !(Z.lxor_comm c). apply lxor_cancel_r. Qed.

Lemma mul32_mulc a c : mul32 a c = mulc c (to_u32 a).
Proof. rewrite mul32_to_u32_l. reflexivity. Qed.

(** A product by a unit modulo 2^32 determines the 32-bit operand. *)
Lemma mul32_inj c d a b :
  (c * d) mod 2 ^ 32 = 1 -> mul32 a c = mul32 b c -> to_u32 a = to_u32 b.
Proof.
  intros Hcd E. rewrite !mul32_mulc in E.
  apply (f_equal (mulc d)) in E.
  now rewrite !(mulc_inverse c d) in E by (exact Hcd || apply to_u32_range).
Qed.

Lemma add32_inj a b c :
  in_u32 a -> in_u32 b -> add32 a c = add32 b c -> a = b.
Proof.
  unfold in_u32, modulus. intros Ha Hb E. rewrite !add32_mod in E.
  change (2 ^ 32) with 4294967296 in *.
  apply (f_equal (fun v => (v + (4294967296 - c mod 4294967296)) mod 4294967296))
    in E.
  rewrite !Zplus_mod_idemp_l in E.
  assert (Ha' : (a + c + (4294967296 - c mod 4294967296)) mod 4294967296 = a).
  { rewrite (Z.div_mod c 4294967296) at 1 by lia.
    replace (a + (4294967296 * (c / 4294967296) + c mod 4294967296)
             + (4294967296 - c mod 4294967296))
      with (a + (c / 4294967296 + 1) * 4294967296) by ring.
    rewrite Z.mod_add by lia. now apply Z.mod_small. }
  assert (Hb' : (b + c + (4294967296 - c mod 4294967296)) mod 4294967296 = b).
  { rewrite (Z.div_mod c 4294967296) at 1 by lia.
    replace (b + (4294967296 * (c / 4294967296) + c mod 4294967296)
             + (4294967296 - c mod 4294967296))
      with (b + (c / 4294967296 + 1) * 4294967296) by ring.
    rewrite Z.mod_add by lia. now apply Z.mod_small. }
  congruence.
Qed.

(** The scrambling [K0 * C1], rotate by [R1], [* C2] determines the 32-bit
    word it started from. *)
Lemma scramble_inj K0 K0' :
  mul32 (Z.lor (shl32 (mul32 K0 C1) R1) (shr32 (mul32 K0 C1) (32 - R1))) C2
  = mul32 (Z.lor (shl32 (mul32 K0' C1) R1) (shr32 (mul32 K0' C1) (32 - R1))) C2 ->
  to_u32 K0 = to_u32 K0'.
Proof.
  intros E.
  apply (mul32_inj C2 0x56ed309b) in E; [ | reflexivity ].
  rewrite !to_u32_id in E
    by (apply rot_in_u32; [ apply mul32_in_u32 | unfold R1; lia ]).
  apply rot_inj in E; [ | apply mul32_in_u32 | apply mul32_in_u32 | unfold R1; lia ].
  now apply (mul32_inj C1 0xdee13bb1) in E.
Qed.

Lemma final_inj h h' n :
  in_u32 h -> in_u32 h' -> in_u32 n ->
  MurmurHash32Impl_final h n = MurmurHash32Impl_final h' n -> h = h'.
Proof.
  intros Hh Hh' Hn E. apply (f_equal unavalanche) in E.
  rewrite !unavalanche_final in E by assumption.
  now apply lxor_cancel_r in E.
Qed.

Lemma final_inj_Length h n n' :
  in_u32 h -> in_u32 n -> in_u32 n' ->
  MurmurHash32Impl_final h n = MurmurHash32Impl_final h n' -> n = n'.
Proof.
  intros Hh Hn Hn' E. apply (f_equal unavalanche) in E.
  rewrite !unavalanche_final in E by assumption.
  now apply lxor_cancel_l in E.
Qed.

Lemma block_inj_Hash Hash Hash' A B C D :
  in_u32 Hash -> in_u32 Hash' ->
  wrap_block Hash A B C D = wrap_block Hash' A B C D ->
  Hash = Hash'.
Proof.
  intros HH HH'. unfold wrap_block. cbv zeta.
  set (K3 := mul32 _ C2). intros E.
  assert (HK : in_u32 K3) by apply mul32_in_u32.
  assert (H1 : in_u32 (Z.lxor Hash K3)) by now apply lxor_in_u32.
  assert (H1' : in_u32 (Z.lxor Hash' K3)) by now apply lxor_in_u32.
  apply add32_inj in E; [ | apply mul32_in_u32 | apply mul32_in_u32 ].
  apply (mul32_inj M 0xcccccccd) in E; [ | reflexivity ].
  rewrite !to_u32_id in E by (apply rot_in_u32; [ assumption | unfold R2; lia ]).
  apply rot_inj in E; [ | assumption | assumption | unfold R2; lia ].
  now apply lxor_cancel_r in E.
Qed.

(** Equal accumulators after a block (from the same accumulator) mean equal
    block words. *)
Lemma block_inj_word Hash A B C D A' B' C' D' :
  in_u32 Hash ->
  wrap_block Hash A B C D = wrap_block Hash A' B' C' D' ->
  to_u32 (Z.lor (Z.lor (Z.lor (to_i32 (Z.shiftl D 24)) (to_i32 (Z.shiftl C 16)))
                       (to_i32 (Z.shiftl B 8))) A)
  = to_u32 (Z.lor (Z.lor (Z.lor (to_i32 (Z.shiftl D' 24))
                                (to_i32 (Z.shiftl C' 16)))
                         (to_i32 (Z.shiftl B' 8))) A').
Proof.
  intros HH. unfold wrap_block. cbv zeta. intros E.
  apply add32_inj in E; [ | apply mul32_in_u32 | apply mul32_in_u32 ].
  apply (mul32_inj M 0xcccccccd) in E; [ | reflexivity ].
  rewrite !to_u32_id in E
    by (apply rot_in_u32;
        [ apply lxor_in_u32; [ assumption | apply mul32_in_u32 ]
        | unfold R2; lia ]).
  apply rot_inj in E;
    [ | apply lxor_in_u32; [ assumption | apply mul32_in_u32 ]
      | apply lxor_in_u32; [ assumption | apply mul32_in_u32 ]
      | unfold R2; lia ].
  apply lxor_cancel_l in E. now apply scramble_inj in E.
Qed.

(** For a fixed pack the value in arithmetic modulo 2^32 is an injective
    function of the accumulator it starts from. *)
Lemma wrap_Impl_inj_Hash Args : forall Hash Hash' Length,
  in_u32 Hash -> in_u32 Hash' -> in_u32 Length ->
  wrap_Impl Args Hash Length = wrap_Impl Args Hash' Length ->
  Hash = Hash'.
Proof.
  induction Args as [ | A | A B | A B C | A B C D Tail IH ] using pack_ind;
    intros Hash Hash' Length HH HH' HL E; cbn [wrap_Impl] in E.
  - now apply final_inj in E.
  - apply final_inj in E;
      [ | now apply tail1_in_u32 | now apply tail1_in_u32 | apply add32_in_u32 ].
    now apply lxor_cancel_r in E.
  - apply final_inj in E;
      [ | now apply tail2_in_u32 | now apply tail2_in_u32 | apply add32_in_u32 ].
    now apply lxor_cancel_r in E.
  - apply final_inj in E;
      [ | now apply tail3_in_u32 | now apply tail3_in_u32 | apply add32_in_u32 ].
    now apply lxor_cancel_r in E.
  - apply IH in E; [ | apply block_in_u32 | apply block_in_u32 | apply add32_in_u32 ].
    now apply block_inj_Hash in E.
Qed.

End Injectivity.

(** ** The bytes of a block word *)

Section ChunkBytes.

Lemma chunk_bits A B C D n :
  0 <= n ->
  Z.testbit (Spec.word_of_chunk A B C D) n
  = Z.testbit A n || Z.testbit B (n - 8) || Z.testbit C (n - 16)
    || Z.testbit D (n - 24).
Proof.
  intros Hn. unfold Spec.word_of_chunk.
  now rewrite !Z.lor_spec, !Z.shiftl_spec by exact Hn.
Qed.

Lemma byte_bits_eq a a' :
  is_byte a -> is_byte a' ->
  (forall m, 0 <= m < 8 -> Z.testbit a m = Z.testbit a' m) -> a = a'.
Proof.
  intros Ha Ha' E. apply Z.bits_inj'. intros n Hn.
  destruct (Z_lt_le_dec n 8) as [Hlt | Hge].
  - apply E. lia.
  - now rewrite !byte_high_bits by assumption.
Qed.

Lemma chunk_byte_bits A B C D m :
  is_byte A -> is_byte B -> is_byte C -> is_byte D -> 0 <= m < 8 ->
  Z.testbit (Spec.word_of_chunk A B C D) m = Z.testbit A m /\
  Z.testbit (Spec.word_of_chunk A B C D) (m + 8) = Z.testbit B m /\
  Z.testbit (Spec.word_of_chunk A B C D) (m + 16) = Z.testbit C m /\
  Z.testbit (Spec.word_of_chunk A B C D) (m + 24) = Z.testbit D m.
Proof.
  intros HA HB HC HD Hm. rewrite !chunk_bits by lia.
  repeat split.
  - rewrite !(Z.testbit_neg_r _ (m - _)) by lia.
    now rewrite !orb_false_r.
  - rewrite (byte_high_bits A) by (assumption || lia).
    rewrite (Z.testbit_neg_r C), (Z.testbit_neg_r D) by lia.
    replace (m + 8 - 8) with m by lia. now rewrite !orb_false_r.
  - rewrite (byte_high_bits A), (byte_high_bits B) by (assumption || lia).
    rewrite (Z.testbit_neg_r D) by lia.
    replace (m + 16 - 16) with m by lia. now rewrite !orb_false_r.
  - rewrite (byte_high_bits A), (byte_high_bits B), (byte_high_bits C)
      by (assumption || lia).
    replace (m + 24 - 24) with m by lia. reflexivity.
Qed.

(** Four bytes are determined by their little-endian word. *)
Lemma chunk_inj A B C D A' B' C' D' :
  is_byte A -> is_byte B -> is_byte C -> is_byte D ->
  is_byte A' -> is_byte B' -> is_byte C' -> is_byte D' ->
  Spec.word_of_chunk A B C D = Spec.word_of_chunk A' B' C' D' ->
  A = A' /\ B = B' /\ C = C' /\ D = D'.
Proof.
  intros HA HB HC HD HA' HB' HC' HD' E.
  repeat split; apply byte_bits_eq; try assumption; intros m Hm;
    destruct (chunk_byte_bits A B C D m HA HB HC HD Hm) as (E0 & E1 & E2 & E3);
    destruct (chunk_byte_bits A' B' C' D' m HA' HB' HC' HD' Hm)
      as (E0' & E1' & E2' & E3');
    rewrite E in *; congruence.
Qed.

Lemma zero_is_byte : is_byte 0.
Proof. unfold is_byte. lia. Qed.

Lemma tail_word_as_chunk A B C :
  Spec.word_of_tail [A] = Spec.word_of_chunk A 0 0 0 /\
  Spec.word_of_tail [A; B] = Spec.word_of_chunk A B 0 0 /\
  Spec.word_of_tail [A; B; C] = Spec.word_of_chunk A B C 0.
Proof.
  unfold Spec.word_of_tail, Spec.word_of_chunk.
  rewrite !Z.shiftl_0_l, !Z.lor_0_r. repeat split.
Qed.

End ChunkBytes.

(** ** The words of two equal tails *)

Lemma tail1_inj_word Hash A A' :
  wrap_tail1 Hash A = wrap_tail1 Hash A' ->
  to_u32 (Z.lxor 0x00000000 A) = to_u32 (Z.lxor 0x00000000 A').
Proof.
  unfold wrap_tail1. cbv zeta. intros E.
  apply lxor_cancel_l in E. now apply scramble_inj in E.
Qed.

Lemma tail2_inj_word Hash A B A' B' :
  wrap_tail2 Hash A B = wrap_tail2 Hash A' B' ->
  to_u32 (Z.lxor (Z.lxor 0x00000000 (to_i32 (Z.shiftl B 8))) A)
  = to_u32 (Z.lxor (Z.lxor 0x00000000 (to_i32 (Z.shiftl B' 8))) A').
Proof.
  unfold wrap_tail2. cbv zeta. intros E.
  apply lxor_cancel_l in E. now apply scramble_inj in E.
Qed.

Lemma tail3_inj_word Hash A B C A' B' C' :
  wrap_tail3 Hash A B C = wrap_tail3 Hash A' B' C' ->
  to_u32 (Z.lxor (Z.lxor (Z.lxor 0 (to_i32 (Z.shiftl C 16)))
                         (to_i32 (Z.shiftl B 8))) A)
  = to_u32 (Z.lxor (Z.lxor (Z.lxor 0 (to_i32 (Z.shiftl C' 16)))
                           (to_i32 (Z.shiftl B' 8))) A').
Proof.
  unfold wrap_tail3. cbv zeta. intros E.
  apply lxor_cancel_l in E. now apply scramble_inj in E.
Qed.

(** ** Negative [char]s *)

Lemma negative_char_high_bits A n :
  -128 <= A < 0 -> 8 <= n -> Z.testbit A n = true.
Proof.
  intros HA Hn.
  replace A with (Z.lnot (- A - 1)) by (unfold Z.lnot; lia).
  rewrite Z.lnot_spec by lia.
  rewrite byte_high_bits; [ reflexivity | unfold is_byte; lia | exact Hn ].
Qed.

(** ORing a negative [char] into an [int] whose low byte is empty leaves the
    [char] alone. *)
Lemma lor_negative_char X A :
  -128 <= A < 0 ->
  (forall n, 0 <= n < 8 -> Z.testbit X n = false) ->
  Z.lor X A = A.
Proof.
  intros HA HX. apply Z.bits_inj'. intros n Hn. rewrite Z.lor_spec.
  destruct (Z_lt_le_dec n 8) as [Hlt | Hge].
  - now rewrite HX by lia.
  - rewrite (negative_char_high_bits A n) by assumption. apply orb_true_r.
Qed.

Lemma block_word_negative_first A B C D :
  -128 <= A < 0 ->
  Z.lor (Z.lor (Z.lor (to_i32 (Z.shiftl D 24)) (to_i32 (Z.shiftl C 16)))
               (to_i32 (Z.shiftl B 8))) A = A.
Proof.
  intros HA. apply lor_negative_char; [ exact HA | ].
  intros n Hn.
  rewrite !Z.lor_spec, !to_i32_low_bits, !shifted_low_bits by lia.
  reflexivity.
Qed.

Lemma add32_succ_neq Length a b :
  0 <= a < b -> b < 4 -> add32 Length b <> add32 Length a.
Proof.
  intros Ha Hb E. rewrite !add32_mod in E.
  assert (H : (b - a) mod 2 ^ 32 = 0).
  { replace (b - a) with ((Length + b) - (Length + a)) by ring.
    rewrite Zminus_mod, E, Z.sub_diag. reflexivity. }
  rewrite Z.mod_small in H; [ lia | ].
  change (2 ^ 32) with 4294967296. lia.
Qed.

(** ** Constant expressions against arithmetic modulo 2^32 *)

Section ConstantExpressions.

Lemma enum_bind_Some e k v :
  enum_bind e k = Some v -> exists t x, e = Some (t, x) /\ k x = Some v.
Proof.
  destruct e as [ [t x] | ]; cbn; [ | discriminate ].
  intros H. now exists t, x.
Qed.

Lemma arith_Some fi fu a b t z :
  arith fi fu a b = Some (t, z) ->
  exists ta x tb y,
    a = Some (ta, x) /\ b = Some (tb, y) /\
    ((ta = Int /\ tb = Int /\ t = Int /\ fi x y = Some z) \/
     (t = UInt /\ z = fu x y)).
Proof.
  destruct a as [ [ta x] | ], b as [ [tb y] | ]; cbn;
    try (destruct ta; discriminate); try discriminate.
  intros H. exists ta, x, tb, y. split; [ reflexivity | split; [ reflexivity | ] ].
  destruct ta, tb; cbn in H.
  - destruct (fi x y) as [ z' | ] eqn:E; [ | discriminate ].
    injection H as <- <-. left. auto.
  - injection H as <- <-. right. auto.
  - injection H as <- <-. right. auto.
  - injection H as <- <-. right. auto.
Qed.

Lemma checked_Some z z' : checked z = Some z' -> z' = z.
Proof. unfold checked. destruct (in_int z); congruence. Qed.

Lemma mul32_congr a a' c : to_u32 a = to_u32 a' -> mul32 a c = mul32 a' c.
Proof. unfold mul32. now intros ->. Qed.

Lemma c_mul_sound a b t z :
  c_mul a b = Some (t, z) ->
  exists ta x tb y,
    a = Some (ta, x) /\ b = Some (tb, y) /\ to_u32 z = mul32 x y.
Proof.
  intros H. apply arith_Some in H as (ta & x & tb & y & Ha & Hb & H).
  exists ta, x, tb, y. repeat split; try assumption.
  destruct H as [ (_ & _ & _ & H) | (_ & ->) ].
  - apply checked_Some in H. subst z. unfold to_u32, modulus.
    now rewrite mul32_mod.
  - apply to_u32_id, mul32_in_u32.
Qed.

Lemma c_add_sound a b t z :
  c_add a b = Some (t, z) ->
  exists ta x tb y,
    a = Some (ta, x) /\ b = Some (tb, y) /\ to_u32 z = add32 x y.
Proof.
  intros H. apply arith_Some in H as (ta & x & tb & y & Ha & Hb & H).
  exists ta, x, tb, y. repeat split; try assumption.
  destruct H as [ (_ & _ & _ & H) | (_ & ->) ].
  - apply checked_Some in H. subst z. unfold to_u32, modulus.
    now rewrite add32_mod.
  - apply to_u32_id, add32_in_u32.
Qed.

Lemma c_xor_sound a b t z :
  c_xor a b = Some (t, z) ->
  exists ta x tb y,
    a = Some (ta, x) /\ b = Some (tb, y) /\
    to_u32 z = Z.lxor (to_u32 x) (to_u32 y).
Proof.
  intros H. apply arith_Some in H as (ta & x & tb & y & Ha & Hb & H).
  exists ta, x, tb, y. repeat split; try assumption.
  destruct H as [ (_ & _ & _ & H) | (_ & ->) ].
  - injection H as <-. apply to_u32_lxor.
  - apply to_u32_id, lxor_in_u32; apply to_u32_range.
Qed.

Lemma c_or_sound a b t z :
  c_or a b = Some (t, z) ->
  exists ta x tb y,
    a = Some (ta, x) /\ b = Some (tb, y) /\
    to_u32 z = Z.lor (to_u32 x) (to_u32 y).
Proof.
  intros H. apply arith_Some in H as (ta & x & tb & y & Ha & Hb & H).
  exists ta, x, tb, y. repeat split; try assumption.
  destruct H as [ (_ & _ & _ & H) | (_ & ->) ].
  - injection H as <-. apply to_u32_lor.
  - apply to_u32_id, lor_in_u32; apply to_u32_range.
Qed.

Lemma c_shl_sound a r t z :
  c_shl a r = Some (t, z) ->
  exists ta x, a = Some (ta, x) /\ to_u32 z = shl32 x r.
Proof.
  unfold c_shl. destruct a as [ [ta x] | ]; [ | discriminate ].
  destruct ta.
  - destruct ((0 <=? x) && (Z.shiftl x r <? 2 ^ 32)); [ | discriminate ].
    intros H. injection H as <- <-.
    exists Int, x. split; [ reflexivity | apply to_u32_to_i32 ].
  - intros H. injection H as <- <-.
    exists UInt, x. split; [ reflexivity | apply to_u32_id, to_u32_range ].
Qed.

Lemma enumerator_inv v t x : enumerator v = Some (t, x) -> x = v.
Proof. unfold enumerator. congruence. Qed.

Lemma literal_inv v t x : literal v = Some (t, x) -> x = v.
Proof. unfold literal. congruence. Qed.

Lemma char_arg_inv c t x : char_arg c = Some (t, x) -> x = c.
Proof. unfold char_arg. congruence. Qed.

Lemma u32_arg_inv h t x : u32_arg h = Some (t, x) -> x = h.
Proof. unfold u32_arg. congruence. Qed.

Lemma c_shr_enumerator_inv X s t b :
  c_shr (enumerator X) s = Some (t, b) -> b = shr32 X s.
Proof. unfold c_shr, enumerator. congruence. Qed.

(** Where the idiom is a constant expression its 32 bits are those of the
    rotation in arithmetic modulo 2^32. *)
Lemma rotate_idiom_sound X r t z :
  in_u32 X -> 0 <= r <= 32 ->
  rotate_idiom X r = Some (t, z) ->
  to_u32 z = Z.lor (shl32 X r) (shr32 X (32 - r)).
Proof.
  intros HX Hr H. unfold rotate_idiom in H.
  apply c_or_sound in H as (ta & a & tb & b & Ha & Hb & ->).
  apply c_shl_sound in Ha as (t1 & x1 & E1 & ->).
  apply enumerator_inv in E1. subst x1.
  apply c_shr_enumerator_inv in Hb. subst b.
  rewrite (to_u32_id (shr32 X (32 - r)))
    by (apply shiftr_in_u32; [ exact HX | lia ]).
  reflexivity.
Qed.

Lemma add32_congr a a' c : to_u32 a = to_u32 a' -> add32 a c = add32 a' c.
Proof. unfold add32. now intros ->. Qed.

(** A product by [C1] and a sum with [N] are unsigned whatever the other
    operand is. *)
Lemma c_mul_C1 K : c_mul (enumerator K) (literal C1) = Some (UInt, mul32 K C1).
Proof. unfold enumerator. now destruct (K <? 2 ^ 31). Qed.

Lemma c_add_N t x : c_add (Some (t, x)) (literal N) = Some (UInt, add32 x N).
Proof. now destruct t. Qed.

Lemma c_xor_u32 Hash K :
  c_xor (u32_arg Hash) (enumerator K)
  = Some (UInt, Z.lxor (to_u32 Hash) (to_u32 K)).
Proof. unfold enumerator. now destruct (K <? 2 ^ 31). Qed.

(** The scrambling [K * C1], rotation by [R1], [* C2], followed by the rest
    [k] of a specialisation. *)
Lemma scramble_sound K0 (k : Z -> option Z) v :
  (enum K1 := c_mul (enumerator K0) (literal C1) ;;
   enum K2 := rotate_idiom K1 R1 ;;
   enum K3 := c_mul (enumerator K2) (literal C2) ;;
   k K3) = Some v ->
  exists K3,
    to_u32 K3
    = mul32 (Z.lor (shl32 (mul32 K0 C1) R1) (shr32 (mul32 K0 C1) (32 - R1))) C2
    /\ k K3 = Some v.
Proof.
  rewrite c_mul_C1. cbn [enum_bind]. intros H.
  apply enum_bind_Some in H as (t2 & K2 & E2 & H).
  apply enum_bind_Some in H as (t3 & K3 & E3 & H).
  exists K3. split; [ | exact H ].
  apply rotate_idiom_sound in E2; [ | apply mul32_in_u32 | unfold R1; lia ].
  apply c_mul_sound in E3 as (ta & x & tb & y & Ea & Eb & ->).
  apply enumerator_inv in Ea. apply literal_inv in Eb. subst x y.
  apply mul32_congr. rewrite E2. symmetry.
  apply to_u32_id, rot_in_u32; [ apply mul32_in_u32 | unfold R1; lia ].
Qed.

(** The scrambled word depends on the 32 bits of [K0] only. *)
Lemma wrap_scramble_congr K0 K0' :
  to_u32 K0 = to_u32 K0' ->
  mul32 (Z.lor (shl32 (mul32 K0 C1) R1) (shr32 (mul32 K0 C1) (32 - R1))) C2
  = mul32 (Z.lor (shl32 (mul32 K0' C1) R1) (shr32 (mul32 K0' C1) (32 - R1))) C2.
Proof. intros E. now rewrite (mul32_congr K0 K0' C1 E). Qed.

(** A well-formed one-[char] tail has the accumulator of arithmetic modulo
    2^32. *)
Lemma tail1_wrap Hash A v :
  in_u32 Hash -> MurmurHash32Impl_tail1 Hash A = Some v -> v = wrap_tail1 Hash A.
Proof.
  intros HH H. unfold MurmurHash32Impl_tail1 in H.
  apply enum_bind_Some in H as (t0 & K0 & E0 & H).
  apply scramble_sound in H as (K3 & E3 & H).
  rewrite c_xor_u32 in H. cbn [enum_bind] in H. injection H as <-.
  apply c_xor_sound in E0 as (ta & x & tb & y & Ea & Eb & E0).
  apply literal_inv in Ea. apply char_arg_inv in Eb. subst x y.
  unfold wrap_tail1. cbv zeta.
  rewrite (to_u32_id Hash HH), E3. f_equal.
  apply wrap_scramble_congr. now rewrite E0, <- to_u32_lxor.
Qed.

Lemma tail2_wrap Hash A B v :
  in_u32 Hash ->
  MurmurHash32Impl_tail2 Hash A B = Some v -> v = wrap_tail2 Hash A B.
Proof.
  intros HH H. unfold MurmurHash32Impl_tail2 in H.
  apply enum_bind_Some in H as (t0 & K0 & E0 & H).
  apply enum_bind_Some in H as (t1 & K1 & E1 & H).
  apply scramble_sound in H as (K4 & E4 & H).
  rewrite c_xor_u32 in H. cbn [enum_bind] in H. injection H as <-.
  apply c_xor_sound in E1 as (ta & x & tb & y & Ea & Eb & E1).
  apply enumerator_inv in Ea. apply char_arg_inv in Eb. subst x y.
  apply c_xor_sound in E0 as (ta' & x & tb' & y & Ea & Eb & E0).
  apply literal_inv in Ea. subst x.
  apply c_shl_sound in Eb as (tc & z & Ec & Eb).
  apply char_arg_inv in Ec. subst z.
  unfold wrap_tail2. cbv zeta.
  rewrite (to_u32_id Hash HH), E4. f_equal.
  apply wrap_scramble_congr.
  rewrite E1, E0, Eb, !to_u32_lxor, to_u32_to_i32.
  unfold shl32. rewrite ?to_u32_idem. reflexivity.
Qed.

Lemma tail3_wrap Hash A B C v :
  in_u32 Hash ->
  MurmurHash32Impl_tail3 Hash A B C = Some v -> v = wrap_tail3 Hash A B C.
Proof.
  intros HH H. unfold MurmurHash32Impl_tail3 in H.
  apply enum_bind_Some in H as (t0 & K0 & E0 & H).
  apply enum_bind_Some in H as (t1 & K1 & E1 & H).
  apply enum_bind_Some in H as (t2 & K2 & E2 & H).
  apply scramble_sound in H as (K5 & E5 & H).
  rewrite c_xor_u32 in H. cbn [enum_bind] in H. injection H as <-.
  apply c_xor_sound in E2 as (ta & x & tb & y & Ea & Eb & E2).
  apply enumerator_inv in Ea. apply char_arg_inv in Eb. subst x y.
  apply c_xor_sound in E1 as (ta' & x & tb' & y & Ea & Eb & E1).
  apply enumerator_inv in Ea. subst x.
  apply c_shl_sound in Eb as (tc & z & Ec & Eb).
  apply char_arg_inv in Ec. subst z.
  apply c_xor_sound in E0 as (ta'' & x & tb'' & y' & Ea & Eb' & E0).
  apply literal_inv in Ea. subst x.
  apply c_shl_sound in Eb' as (tc' & z & Ec & Eb').
  apply char_arg_inv in Ec. subst z.
  unfold wrap_tail3. cbv zeta.
  rewrite (to_u32_id Hash HH), E5. f_equal.
  apply wrap_scramble_congr.
  rewrite E2, E1, E0, Eb, Eb', !to_u32_lxor, !to_u32_to_i32.
  unfold shl32. rewrite ?to_u32_idem. reflexivity.
Qed.

Lemma block_wrap Hash A B C D v :
  in_u32 Hash ->
  MurmurHash32Impl_block Hash A B C D = Some v -> v = wrap_block Hash A B C D.
Proof.
  intros HH H. unfold MurmurHash32Impl_block in H.
  apply enum_bind_Some in H as (t0 & K0 & E0 & H).
  apply scramble_sound in H as (K3 & E3 & H).
  rewrite c_xor_u32 in H. cbn [enum_bind] in H.
  apply enum_bind_Some in H as (t2 & Hash2 & E2 & H).
  apply enum_bind_Some in H as (t3 & Hash3 & E4 & H).
  injection H as <-.
  set (Hash1 := Z.lxor (to_u32 Hash) (to_u32 K3)) in *.
  assert (H1 : in_u32 Hash1) by (apply lxor_in_u32; apply to_u32_range).
  apply rotate_idiom_sound in E2; [ | exact H1 | unfold R2; lia ].
  destruct (c_mul (enumerator Hash2) (literal M)) as [ [tm xm] | ] eqn:Em;
    [ | discriminate E4 ].
  rewrite c_add_N in E4. injection E4 as _ <-.
  apply c_mul_sound in Em as (ta & x & tb & y & Ea & Eb & Em).
  apply enumerator_inv in Ea. apply literal_inv in Eb. subst x y.
  apply c_or_sound in E0 as (ta0 & x0 & tb0 & y0 & Ea0 & Eb0 & E0).
  apply char_arg_inv in Eb0. subst y0.
  apply c_or_sound in Ea0 as (ta1 & x1 & tb1 & y1 & Ea1 & Eb1 & E1).
  apply c_shl_sound in Eb1 as (tB & zB & EcB & EB).
  apply char_arg_inv in EcB. subst zB.
  apply c_or_sound in Ea1 as (ta2 & x2 & tb2 & y2 & Ea2 & Eb2 & E2').
  apply c_shl_sound in Ea2 as (tD & zD & EcD & ED).
  apply char_arg_inv in EcD. subst zD.
  apply c_shl_sound in Eb2 as (tC & zC & EcC & EC).
  apply char_arg_inv in EcC. subst zC.
  unfold wrap_block. cbv zeta.
  assert (EK : mul32 (Z.lor (shl32 (mul32 K0 C1) R1)
                            (shr32 (mul32 K0 C1) (32 - R1))) C2
               = mul32 (Z.lor (shl32 (mul32
                   (Z.lor (Z.lor (Z.lor (to_i32 (Z.shiftl D 24))
                                        (to_i32 (Z.shiftl C 16)))
                                 (to_i32 (Z.shiftl B 8))) A) C1) R1)
                   (shr32 (mul32
                   (Z.lor (Z.lor (Z.lor (to_i32 (Z.shiftl D 24))
                                        (to_i32 (Z.shiftl C 16)))
                                 (to_i32 (Z.shiftl B 8))) A) C1) (32 - R1))) C2).
  { apply wrap_scramble_congr.
    rewrite E0, E1, E2', ED, EC, EB, !to_u32_lor, !to_u32_to_i32.
    unfold shl32. rewrite ?to_u32_idem. reflexivity. }
  rewrite <- EK, <- E3.
  replace (Z.lxor Hash (to_u32 K3)) with Hash1
    by (unfold Hash1; now rewrite (to_u32_id Hash HH)).
  apply add32_congr. rewrite Em.
  rewrite (to_u32_id (mul32 _ M)) by apply mul32_in_u32.
  apply mul32_congr. rewrite E2. symmetry.
  apply to_u32_id, rot_in_u32; [ exact H1 | unfold R2; lia ].
Qed.

(** Well-formed accumulators are 32-bit words. *)
Lemma tail1_Some_in_u32 Hash A v :
  in_u32 Hash -> MurmurHash32Impl_tail1 Hash A = Some v -> in_u32 v.
Proof. intros HH H. rewrite (tail1_wrap _ _ _ HH H). now apply tail1_in_u32. Qed.

Lemma tail2_Some_in_u32 Hash A B v :
  in_u32 Hash -> MurmurHash32Impl_tail2 Hash A B = Some v -> in_u32 v.
Proof. intros HH H. rewrite (tail2_wrap _ _ _ _ HH H). now apply tail2_in_u32. Qed.

Lemma tail3_Some_in_u32 Hash A B C v :
  in_u32 Hash -> MurmurHash32Impl_tail3 Hash A B C = Some v -> in_u32 v.
Proof. intros HH H. rewrite (tail3_wrap _ _ _ _ _ HH H). now apply tail3_in_u32. Qed.

Lemma block_Some_in_u32 Hash A B C D v :
  in_u32 Hash -> MurmurHash32Impl_block Hash A B C D = Some v -> in_u32 v.
Proof. intros HH H. rewrite (block_wrap _ _ _ _ _ _ HH H). apply block_in_u32. Qed.

(** A well-formed chain has the value of arithmetic modulo 2^32. *)
Lemma MurmurHash32Impl_wrap Args : forall Hash Length v,
  in_u32 Hash ->
  MurmurHash32Impl Args Hash Length = Some v -> v = wrap_Impl Args Hash Length.
Proof.
  induction Args as [ | A | A B | A B C | A B C D Tail IH ] using pack_ind;
    intros Hash Length v HH H; cbn [MurmurHash32Impl wrap_Impl] in *.
  - congruence.
  - destruct (MurmurHash32Impl_tail1 Hash A) as [ h | ] eqn:E; [ | discriminate ].
    rewrite <- (tail1_wrap _ _ _ HH E). congruence.
  - destruct (MurmurHash32Impl_tail2 Hash A B) as [ h | ] eqn:E;
      [ | discriminate ].
    rewrite <- (tail2_wrap _ _ _ _ HH E). congruence.
  - destruct (MurmurHash32Impl_tail3 Hash A B C) as [ h | ] eqn:E;
      [ | discriminate ].
    rewrite <- (tail3_wrap _ _ _ _ _ HH E). congruence.
  - destruct (MurmurHash32Impl_block Hash A B C D) as [ h | ] eqn:E;
      [ | discriminate ].
    rewrite <- (block_wrap _ _ _ _ _ _ HH E).
    apply IH; [ | exact H ]. now apply (block_Some_in_u32 Hash A B C D).
Qed.

End ConstantExpressions.

(** ** The chain of instantiations *)

Section Chain.

(** The value of an instantiation is the final specialisation applied to
    the last instantiation of its chain, when the chain gets there. *)
Lemma value_of_final_instance Args : forall Hash Length,
  MurmurHash32Impl Args Hash Length
  = option_map (fun i => MurmurHash32Impl_final (inst_Hash i) (inst_Length i))
               (final_instance Args Hash Length).
Proof.
  induction Args as [ | A | A B | A B C | A B C D Tail IH ] using pack_ind;
    intros Hash Length; cbn [MurmurHash32Impl final_instance].
  - reflexivity.
  - now destruct (MurmurHash32Impl_tail1 Hash A).
  - now destruct (MurmurHash32Impl_tail2 Hash A B).
  - now destruct (MurmurHash32Impl_tail3 Hash A B C).
  - destruct (MurmurHash32Impl_block Hash A B C D); [ apply IH | reflexivity ].
Qed.

(** The [Length] argument counts the arguments consumed, modulo 2^32. *)
Lemma final_instance_Length Args : forall Hash Length i,
  final_instance Args Hash (to_u32 Length) = Some i ->
  inst_Length i = to_u32 (Length + Z.of_nat (length Args)).
Proof.
  induction Args as [ | A | A B | A B C | A B C D Tail IH ] using pack_ind;
    intros Hash Length i; cbn [final_instance length].
  - intros H. injection H as <-. cbn. now rewrite Z.add_0_r.
  - destruct (MurmurHash32Impl_tail1 Hash A); [ | discriminate ].
    intros H. injection H as <-. cbn. now rewrite add32_to_u32_l.
  - destruct (MurmurHash32Impl_tail2 Hash A B); [ | discriminate ].
    intros H. injection H as <-. cbn. now rewrite add32_to_u32_l.
  - destruct (MurmurHash32Impl_tail3 Hash A B C); [ | discriminate ].
    intros H. injection H as <-. cbn. now rewrite add32_to_u32_l.
  - destruct (MurmurHash32Impl_block Hash A B C D) as [ h | ]; [ | discriminate ].
    rewrite add32_to_u32_l. intros H. rewrite (IH _ _ _ H). f_equal. lia.
Qed.

(** Following the chain never runs out of fuel within [instantiations]
    links: it ends with the digest or at an ill-formed instantiation. *)
Lemma chase_instantiations Args : forall Hash Length,
  chase (instantiations Args) (Inst Hash Length Args)
  = match MurmurHash32Impl Args Hash Length with
    | Some v => Digest v
    | None => Rejected
    end.
Proof.
  induction Args as [ | A | A B | A B C | A B C D Tail IH ] using pack_ind;
    intros Hash Length; cbn [instantiations chase next MurmurHash32Impl].
  - reflexivity.
  - now destruct (MurmurHash32Impl_tail1 Hash A).
  - now destruct (MurmurHash32Impl_tail2 Hash A B).
  - now destruct (MurmurHash32Impl_tail3 Hash A B C).
  - destruct (MurmurHash32Impl_block Hash A B C D); cbn [next_of];
      [ apply IH | reflexivity ].
Qed.

Lemma instantiations_count Args :
  instantiations Args
  = (length Args / 4 + (if length Args mod 4 =? 0 then 1 else 2))%nat.
Proof.
  induction Args as [ | A | A B | A B C | A B C D Tail IH ] using pack_ind;
    try reflexivity.
  cbn [instantiations length]. rewrite IH.
  change (S (S (S (S (length Tail))))) with (1 * 4 + length Tail)%nat.
  rewrite Nat.div_add_l by lia.
  replace ((1 * 4 + length Tail) mod 4)%nat with (length Tail mod 4)%nat.
  - lia.
  - rewrite Nat.add_comm. symmetry. apply Nat.Div0.mod_add.
Qed.

End Chain.

(** ** The claims of the specification *)



(** C2 does not hold of the header.  In the block '\xe9','a','a','f' (where
    plain [char] is signed, so that the first argument is -23) the
    instantiation is well-formed and the block word [K0] is -23, 0xffffffe9
    as 32 bits, instead of the little-endian 0x666161e9: accumulator and
    digest differ from those of the block step.  In the block
    'a','b','c','d' the enumerator [K1] is below 2^31, [K1 << R1] overflows
    an [int], and the header gives no digest at all. *)
Theorem block_step_diverges :
  is_char true (-23) = true /\ byte_of (-23) = 0xe9 /\
  MurmurHash32Impl_block 0 (-23) 97 97 102 = Some 0x66e84e0b /\
  Spec.block 0 (Spec.word_of_chunk 0xe9 97 97 102) = 0x3063e5b0 /\
  MurmurHash32 0 [-23; 97; 97; 102] = Some 0xdfd39b28 /\
  Spec.hash32 [0xe9; 97; 97; 102] 0 = 0xa1d0ed99 /\
  MurmurHash32Impl_block 0 97 98 99 100 = None /\
  MurmurHash32 0 (chars_of "abcd"%string) = None /\
  Spec.hash32 (chars_of "abcd"%string) 0 = 0x43ed676a.
Proof. repeat split; vm_compute; reflexivity. Qed.

(** C3 does not hold of the header.  For the pack '\xe9' (one trailing
    [char], -23 where plain [char] is signed) the instantiation is
    well-formed and the partial word is 0xffffffe9 instead of 0x000000e9, so
    accumulator and digest differ from those of the tail step; likewise for
    the tails '\xcc','a' and '\x83','a','a'.  For the tail 'a','b' the
    enumerator [K2] is below 2^31, [K2 << R1] overflows an [int], and the
    header gives no digest at all. *)
Theorem tail_step_diverges :
  is_char true (-23) = true /\ byte_of (-23) = 0xe9 /\
  MurmurHash32Impl_tail1 0 (-23) = Some 0x9ddc00ec /\
  Spec.tail 0 [0xe9] = 0x7740ae21 /\
  MurmurHash32 0 [-23] = Some 0x1a4ae4ef /\
  Spec.hash32 [0xe9] 0 = 0x44c6d4b2 /\
  MurmurHash32Impl_tail2 0 (-52) 97 = Some 0xfc98601b /\
  Spec.tail 0 [0xcc; 97] = 0xb8edca01 /\
  MurmurHash32Impl_tail3 0 (-125) 97 97 = Some 0x64052189 /\
  Spec.tail 0 [0x83; 97; 97] = 0x440cc712 /\
  MurmurHash32Impl_tail2 0 97 98 = None /\
  MurmurHash32 0 (chars_of "ab"%string) = None /\
  Spec.hash32 (chars_of "ab"%string) 0 = 0x9bbfd75f.
Proof. repeat split; vm_compute; reflexivity. Qed.

(** C4: on 32-bit words [h] and [n] the final specialisation computes
    [h ^= n; h ^= h >> 16; h *= 0x85ebca6b; h ^= h >> 13; h *= 0xc2b2ae35;
    h ^= h >> 16] with logical shifts and products modulo 2^32, and the
    length it receives from [MurmurHash32<Seed, Chars...>] is the number of
    arguments of the pack (as a 32-bit value). *)
Theorem finalizer_spec Seed Chars h n :
  in_u32 h -> in_u32 n ->
  MurmurHash32Impl_final h n = Spec.finalize h n /\
  option_map inst_Length (final_instance Chars Seed 0)
  = option_map (fun _ => Z.of_nat (length Chars) mod 2 ^ 32)
               (final_instance Chars Seed 0) /\
  MurmurHash32 Seed Chars
  = option_map
      (fun i => MurmurHash32Impl_final (inst_Hash i)
                  (Z.of_nat (length Chars) mod 2 ^ 32))
      (final_instance Chars Seed 0).
Proof.
  intros Hh Hn.
  split; [ now apply final_refines | ].
  unfold MurmurHash32. rewrite value_of_final_instance.
  destruct (final_instance Chars Seed 0) as [ i | ] eqn:E; cbn [option_map];
    [ | split; reflexivity ].
  change 0 with (to_u32 0) in E. apply final_instance_Length in E.
  change (to_u32 (0 + Z.of_nat (length Chars)))
    with (Z.of_nat (length Chars) mod 2 ^ 32) in E.
  rewrite E. split; reflexivity.
Qed.

Lemma finalizer_spec_witness :
  in_u32 0xbbeeb010 /\ in_u32 1 /\
  MurmurHash32Impl_final 0xbbeeb010 1 = Spec.finalize 0xbbeeb010 1 /\
  option_map inst_Length (final_instance (chars_of "aaaca"%string) 0 0)
  = option_map (fun _ => Z.of_nat (length (chars_of "aaaca"%string)) mod 2 ^ 32)
               (final_instance (chars_of "aaaca"%string) 0 0) /\
  MurmurHash32 0 (chars_of "aaaca"%string)
  = option_map
      (fun i => MurmurHash32Impl_final (inst_Hash i)
                  (Z.of_nat (length (chars_of "aaaca"%string)) mod 2 ^ 32))
      (final_instance (chars_of "aaaca"%string) 0 0).
Proof.
  assert (H1 : in_u32 0xbbeeb010) by (unfold in_u32, modulus; lia).
  assert (H2 : in_u32 1) by (unfold in_u32, modulus; lia).
  split; [ exact H1 | split; [ exact H2 | ] ].
  exact (finalizer_spec 0 (chars_of "aaaca"%string) 0xbbeeb010 1 H1 H2).
Defined.

(** C5: for every seed the empty pack selects the final specialisation at
    once, with the seed as accumulator and length 0; the instantiation is
    well-formed and its value is the finalizer applied to the seed, that is
    the avalanche of the seed. *)
Theorem empty_input Seed :
  in_u32 Seed ->
  final_instance [] Seed 0 = Some (Inst Seed 0 []) /\
  next (Inst Seed 0 []) = Value (Spec.finalize Seed 0) /\
  MurmurHash32_args true [Seed] = Some (Spec.finalize Seed 0) /\
  MurmurHash32_args false [Seed] = Some (Spec.finalize Seed 0) /\
  MurmurHash32 Seed [] = Some (Spec.finalize Seed 0) /\
  Spec.finalize Seed 0 = Spec.avalanche Seed.
Proof.
  intros HS.
  assert (HF : MurmurHash32Impl_final Seed 0 = Spec.finalize Seed 0)
    by (apply final_refines; [ exact HS | unfold in_u32, modulus; lia ]).
  assert (HA : forall s, MurmurHash32_args s [Seed]
                         = Some (Spec.finalize Seed 0)).
  { intros s. unfold MurmurHash32_args. destruct HS as [H0 H1].
    apply Z.leb_le in H0. apply Z.ltb_lt in H1. rewrite H0, H1. cbn.
    now rewrite HF. }
  split; [ reflexivity | ].
  split; [ cbn [next]; now rewrite HF | ].
  split; [ apply HA | ]. split; [ apply HA | ].
  split; [ unfold MurmurHash32; cbn [MurmurHash32Impl]; now rewrite HF | ].
  unfold Spec.finalize. now rewrite Z.lxor_0_r.
Qed.

Lemma empty_input_witness :
  in_u32 42 /\
  final_instance [] 42 0 = Some (Inst 42 0 []) /\
  next (Inst 42 0 []) = Value (Spec.finalize 42 0) /\
  MurmurHash32_args true [42] = Some (Spec.finalize 42 0) /\
  MurmurHash32_args false [42] = Some (Spec.finalize 42 0) /\
  MurmurHash32 42 [] = Some (Spec.finalize 42 0) /\
  Spec.finalize 42 0 = Spec.avalanche 42.
Proof.
  assert (H : in_u32 42) by (unfold in_u32, modulus; lia).
  split; [ exact H | exact (empty_input 42 H) ].
Defined.

(** C6 does not hold of the header: [Seed] has no default argument,
    although the usage comment of the header leaves the seed out.  An
    argument list without a seed is ill-formed when it is empty, and
    otherwise its first argument is taken as the seed: ['a','a'] is the
    digest of "a" with seed 97 and not that of "aa" with seed 0, and
    ['H','i'], the example of the usage comment, is ill-formed.  Nor is every
    pack accepted with a seed: [0,'a','b'] is ill-formed. *)
Theorem seed_has_no_default :
  MurmurHash32_args true [] = None /\
  MurmurHash32_args true (chars_of "aa"%string)
  = MurmurHash32 97 (chars_of "a"%string) /\
  MurmurHash32_args true (chars_of "aa"%string) = Some 0x73684721 /\
  Spec.hash32 (chars_of "aa"%string) 0 = 0x371091a9 /\
  MurmurHash32_args true (chars_of "Hi"%string) = None /\
  Spec.hash32 (chars_of "Hi"%string) 0 = 0x3516b65 /\
  MurmurHash32_args true (0 :: chars_of "ab"%string) = None.
Proof. repeat split; vm_compute; reflexivity. Qed.

(** C7 does not hold of the header: the digest of a byte sequence depends on
    whether the host's plain [char] is signed.  The bytes cc 61 with seed 0
    have the digest 0x32acb1ee where it is signed and 0xff9dcdf1 (that of
    Murmur3_32) where it is not; the byte e9 has the digest 0x1a4ae4ef where
    it is signed and none where it is not. *)
Theorem digest_depends_on_char_signedness :
  digest_of_bytes true [0xcc; 0x61] 0 = Some 0x32acb1ee /\
  digest_of_bytes false [0xcc; 0x61] 0 = Some 0xff9dcdf1 /\
  Spec.hash32 [0xcc; 0x61] 0 = 0xff9dcdf1 /\
  digest_of_bytes true [0xe9] 0 = Some 0x1a4ae4ef /\
  digest_of_bytes false [0xe9] 0 = None.
Proof. repeat split; vm_compute; reflexivity. Qed.

(** C8 does not hold of the header for "abcd": the block 'a','b','c','d' is
    ill-formed whatever the seed and whatever follows, so there are no two
    digests to compare.  For "a" the seeds 0 and 1 give the different digests
    0x3c2569b2 and 0x588adce8. *)
Theorem seed_sensitivity_abcd_rejected :
  MurmurHash32 0 (chars_of "a"%string) = Some 0x3c2569b2 /\
  MurmurHash32 1 (chars_of "a"%string) = Some 0x588adce8 /\
  MurmurHash32 0 (chars_of "abcd"%string) = None /\
  MurmurHash32 1 (chars_of "abcd"%string) = None /\
  (forall Seed Tail, MurmurHash32 Seed (97 :: 98 :: 99 :: 100 :: Tail) = None) /\
  Spec.hash32 (chars_of "abcd"%string) 0 = 0x43ed676a /\
  Spec.hash32 (chars_of "abcd"%string) 1 = 0x9bf54592.
Proof.
  repeat split; intros; vm_compute; reflexivity.
Qed.

(** C9 does not hold of the header: the chain of "ab" with seed 0 does not
    reach the final specialisation, it stops at the two-[char] tail, which is
    ill-formed.  What holds for every pack and seed is that the chain ends
    within [length / 4] block links, one more link when arguments are left
    over and the final one, with the digest or at an ill-formed
    instantiation, and that every link drops four arguments (a block) or all
    that is left (a tail). *)
Theorem chain_stops_at_ill_formed_tail :
  next (Inst 0 0 (chars_of "ab"%string)) = IllFormed /\
  chase (instantiations (chars_of "ab"%string)) (Inst 0 0 (chars_of "ab"%string))
  = Rejected /\
  final_instance (chars_of "ab"%string) 0 0 = None /\
  (forall Seed Chars,
     chase (instantiations Chars) (Inst Seed 0 Chars)
     = match MurmurHash32 Seed Chars with
       | Some v => Digest v
       | None => Rejected
       end) /\
  (forall Chars,
     instantiations Chars
     = (length Chars / 4 + (if length Chars mod 4 =? 0 then 1 else 2))%nat) /\
  (forall i,
     match next i with
     | Value _ => inst_Args i = []
     | Next j =>
         (length (inst_Args j) < length (inst_Args i))%nat /\
         ((length (inst_Args i) < 4)%nat /\ inst_Args j = [] \/
          length (inst_Args i) = (4 + length (inst_Args j))%nat)
     | IllFormed => inst_Args i <> []
     end).
Proof.
  split; [ vm_compute; reflexivity | ].
  split; [ vm_compute; reflexivity | ].
  split; [ vm_compute; reflexivity | ].
  split; [ intros; apply chase_instantiations | ].
  split; [ apply instantiations_count | ].
  intros [Hash Length [ | A [ | B [ | C [ | D Tail ] ] ] ] ];
    cbn [next inst_Args length]; try reflexivity;
    match goal with
    | |- context [ next_of ?e _ _ ] => destruct e; cbn [next_of inst_Args]
    end;
    try discriminate;
    (split; [ cbn [length]; lia | ]);
    (left; split; [ cbn [length]; lia | reflexivity ]) || (right; reflexivity).
Qed.

(** C10: for every length the final specialisation is a bijection between
    accumulators and digests on 32-bit words; [unavalanche] undoes the five
    steps of the avalanche, each of which is invertible (the XOR-shifts, and
    the products by the odd constants, whose inverses modulo 2^32 are
    0xa5cb9243 and 0x7ed1b41d). *)
Theorem finalizer_bijective n :
  in_u32 n ->
  (forall h h', in_u32 h -> in_u32 h' ->
     MurmurHash32Impl_final h n = MurmurHash32Impl_final h' n -> h = h') /\
  (forall d, in_u32 d ->
     exists h, in_u32 h /\ MurmurHash32Impl_final h n = d) /\
  (forall h, in_u32 h -> unavalanche (MurmurHash32Impl_final h 0) = h) /\
  (forall d, in_u32 d -> MurmurHash32Impl_final (unavalanche d) 0 = d) /\
  (0x85ebca6b * 0xa5cb9243) mod 2 ^ 32 = 1 /\
  (0xc2b2ae35 * 0x7ed1b41d) mod 2 ^ 32 = 1.
Proof.
  intros Hn.
  assert (H0 : in_u32 0) by (unfold in_u32, modulus; lia).
  repeat split; try reflexivity.
  - intros h h' Hh Hh' E.
    apply (f_equal unavalanche) in E.
    rewrite !unavalanche_final in E by assumption.
    apply (f_equal (fun x => Z.lxor x n)) in E.
    now rewrite !Z.lxor_assoc, Z.lxor_nilpotent, !Z.lxor_0_r in E.
  - intros d Hd. exists (Z.lxor (unavalanche d) n). split.
    + apply lxor_in_u32; [ now apply unavalanche_in_u32 | exact Hn ].
    + now apply final_unavalanche.
  - intros h Hh. rewrite unavalanche_final by assumption. apply Z.lxor_0_r.
  - intros d Hd.
    rewrite <- (Z.lxor_0_r (unavalanche d)). now apply final_unavalanche.
Qed.

Lemma finalizer_bijective_witness :
  in_u32 4 /\
  exists h, in_u32 h /\ MurmurHash32Impl_final h 4 = 0x43ed676a.
Proof.
  assert (H : in_u32 4) by (unfold in_u32, modulus; lia).
  split; [ exact H | ].
  apply (proj1 (proj2 (finalizer_bijective 4 H))).
  unfold in_u32, modulus. lia.
Defined.

(** * Further properties of the header *)

(** ** Seeds, blocks and tails of well-formed instantiations *)

(** X1: whenever the header accepts a pack under two different 32-bit seeds,
    the two digests differ: every block step, the tail step and the final
    calculations are injective in the accumulator. *)
Theorem distinct_seeds_distinct_digests Chars Seed Seed' v v' :
  in_u32 Seed -> in_u32 Seed' -> Seed <> Seed' ->
  MurmurHash32 Seed Chars = Some v -> MurmurHash32 Seed' Chars = Some v' ->
  v <> v'.
Proof.
  intros HS HS' Hne Hv Hv' E. apply Hne.
  apply MurmurHash32Impl_wrap in Hv; [ | exact HS ].
  apply MurmurHash32Impl_wrap in Hv'; [ | exact HS' ].
  apply (wrap_Impl_inj_Hash Chars Seed Seed' 0); try assumption.
  - unfold in_u32, modulus. lia.
  - congruence.
Qed.

Lemma distinct_seeds_distinct_digests_witness :
  in_u32 0 /\ in_u32 1 /\ 0 <> 1 /\
  MurmurHash32 0 (chars_of "a"%string) = Some 0x3c2569b2 /\
  MurmurHash32 1 (chars_of "a"%string) = Some 0x588adce8 /\
  0x3c2569b2 <> 0x588adce8.
Proof.
  assert (H0 : in_u32 0) by (unfold in_u32, modulus; lia).
  assert (H1 : in_u32 1) by (unfold in_u32, modulus; lia).
  assert (Hne : 0 <> 1) by lia.
  assert (Hv : MurmurHash32 0 (chars_of "a"%string) = Some 0x3c2569b2)
    by (vm_compute; reflexivity).
  assert (Hv' : MurmurHash32 1 (chars_of "a"%string) = Some 0x588adce8)
    by (vm_compute; reflexivity).
  split; [ exact H0 | split; [ exact H1 | split; [ exact Hne | ] ] ].
  split; [ exact Hv | split; [ exact Hv' | ] ].
  exact (distinct_seeds_distinct_digests (chars_of "a"%string) 0 1 _ _
           H0 H1 Hne Hv Hv').
Defined.

(** X2: whenever the header accepts a pack of non-negative [char]s with a
    32-bit seed, the digest is that of Murmur3_32 as the comment at the head
    of the file gives it (little-endian chunks, tail without the second
    mixing, length XORed in, final avalanche). *)
Theorem MurmurHash32_computes_Murmur3_32 Seed Chars v :
  in_u32 Seed -> Forall is_byte Chars ->
  MurmurHash32 Seed Chars = Some v ->
  v = Spec.hash32 Chars Seed.
Proof.
  intros HS HF Hv. apply MurmurHash32Impl_wrap in Hv; [ | exact HS ].
  rewrite Hv. now apply wrap_hash_refines_bytes.
Qed.

Lemma MurmurHash32_computes_Murmur3_32_witness :
  in_u32 0 /\ Forall is_byte (chars_of "aaaca"%string) /\
  MurmurHash32 0 (chars_of "aaaca"%string) = Some 0x7e3b1ab /\
  0x7e3b1ab = Spec.hash32 (chars_of "aaaca"%string) 0.
Proof.
  assert (HS : in_u32 0) by (unfold in_u32, modulus; lia).
  assert (HF : Forall is_byte (chars_of "aaaca"%string))
    by (repeat constructor; unfold is_byte; lia).
  assert (Hv : MurmurHash32 0 (chars_of "aaaca"%string) = Some 0x7e3b1ab)
    by (vm_compute; reflexivity).
  split; [ exact HS | split; [ exact HF | split; [ exact Hv | ] ] ].
  exact (MurmurHash32_computes_Murmur3_32 0 (chars_of "aaaca"%string) _
           HS HF Hv).
Defined.

(** X3: the idiom [(X << r) | (X >> (32 - r))] on an enumerator [X] that is a
    32-bit word, for [0 < r < 32]: it is ill-formed exactly when [X] is below
    2^31 (an [int]) and [X << r] does not fit 32 bits, and where it is
    well-formed bit [n] of the result is bit [(n - r) mod 32] of [X]. *)
Theorem rotate_idiom_rotates x r :
  in_u32 x -> 0 < r < 32 ->
  (rotate_idiom x r = None <-> 2 ^ (32 - r) <= x < 2 ^ 31) /\
  (forall t z n,
     rotate_idiom x r = Some (t, z) -> 0 <= n < 32 ->
     Z.testbit z n = Z.testbit x ((n - r) mod 32)).
Proof.
  intros Hx Hr. split.
  - assert (Hp : 0 < 2 ^ r) by (apply Z.pow_pos_nonneg; lia).
    assert (Hq : 2 ^ 32 = 2 ^ (32 - r) * 2 ^ r)
      by (rewrite <- Z.pow_add_r by lia; f_equal; lia).
    unfold rotate_idiom, enumerator, c_shl, c_shr.
    destruct (Z.ltb_spec x (2 ^ 31)) as [Hlt | Hge].
    + destruct (Z.leb_spec 0 x) as [H0 | H0]; [ | destruct Hx; lia ].
      rewrite Z.shiftl_mul_pow2 by lia.
      destruct (Z.ltb_spec (x * 2 ^ r) (2 ^ 32)) as [Hs | Hs];
        cbn [andb c_or arith].
      * split; [ discriminate | ]. intros [Hlo _]. nia.
      * split; [ intros _ | reflexivity ]. split; [ nia | exact Hlt ].
    + cbn [c_or arith]. split; [ discriminate | lia ].
  - intros t z n H Hn.
    apply rotate_idiom_sound in H; [ | exact Hx | lia ].
    rewrite <- (to_u32_low_bits z n Hn), H.
    destruct (Z_lt_le_dec n r) as [Hlt | Hge].
    + rewrite rot_low_bits by (assumption || lia). f_equal.
      apply Z.mod_unique with (-1); lia.
    + rewrite rot_high_bits by (assumption || lia). f_equal.
      apply Z.mod_unique with 0; lia.
Qed.

Lemma rotate_idiom_rotates_witness :
  in_u32 0x1ffff /\ 0 < R1 < 32 /\
  rotate_idiom 0x1ffff R1 = Some (Int, -32768) /\
  (rotate_idiom 0x1ffff R1 = None <-> 2 ^ (32 - R1) <= 0x1ffff < 2 ^ 31) /\
  Z.testbit (-32768) 31 = Z.testbit 0x1ffff ((31 - R1) mod 32).
Proof.
  assert (Hx : in_u32 0x1ffff) by (unfold in_u32, modulus; lia).
  assert (Hr : 0 < R1 < 32) by (unfold R1; lia).
  assert (Hv : rotate_idiom 0x1ffff R1 = Some (Int, -32768)) by reflexivity.
  split; [ exact Hx | split; [ exact Hr | split; [ exact Hv | ] ] ].
  split; [ exact (proj1 (rotate_idiom_rotates 0x1ffff R1 Hx Hr)) | ].
  apply (proj2 (rotate_idiom_rotates 0x1ffff R1 Hx Hr) Int (-32768) 31 Hv).
  lia.
Defined.

(** X4: two well-formed packs that start from the same accumulator and
    length, differ in their first block of four non-negative [char]s and go
    on with the same arguments never have the same value. *)
Theorem one_block_never_collides Hash Length A B C D A' B' C' D' Tail v v' :
  in_u32 Hash -> in_u32 Length ->
  is_byte A -> is_byte B -> is_byte C -> is_byte D ->
  is_byte A' -> is_byte B' -> is_byte C' -> is_byte D' ->
  (A, B, C, D) <> (A', B', C', D') ->
  MurmurHash32Impl (A :: B :: C :: D :: Tail) Hash Length = Some v ->
  MurmurHash32Impl (A' :: B' :: C' :: D' :: Tail) Hash Length = Some v' ->
  v <> v'.
Proof.
  intros HH HL HA HB HC HD HA' HB' HC' HD' Hne Hv Hv' E. apply Hne.
  apply MurmurHash32Impl_wrap in Hv; [ | exact HH ].
  apply MurmurHash32Impl_wrap in Hv'; [ | exact HH ].
  rewrite Hv, Hv' in E. cbn [wrap_Impl] in E.
  apply wrap_Impl_inj_Hash in E;
    [ | apply block_in_u32 | apply block_in_u32 | apply add32_in_u32 ].
  apply block_inj_word in E; [ | exact HH ].
  rewrite !block_word_bytes in E by assumption.
  apply chunk_inj in E; try assumption.
  destruct E as (-> & -> & -> & ->). reflexivity.
Qed.

Lemma one_block_never_collides_witness :
  in_u32 0 /\ in_u32 0 /\
  (is_byte 97 /\ is_byte 99 /\ is_byte 101) /\
  (97, 97, 97, 99) <> (97, 97, 97, 101) /\
  MurmurHash32Impl (chars_of "aaac"%string) 0 0 = Some 0x1b64f212 /\
  MurmurHash32Impl (chars_of "aaae"%string) 0 0 = Some 0x1a1aaa20 /\
  0x1b64f212 <> 0x1a1aaa20.
Proof.
  assert (H0 : in_u32 0) by (unfold in_u32, modulus; lia).
  assert (Ha : is_byte 97) by (unfold is_byte; lia).
  assert (Hc : is_byte 99) by (unfold is_byte; lia).
  assert (He : is_byte 101) by (unfold is_byte; lia).
  assert (Hne : (97, 97, 97, 99) <> (97, 97, 97, 101)) by discriminate.
  assert (Hv : MurmurHash32Impl (chars_of "aaac"%string) 0 0 = Some 0x1b64f212)
    by (vm_compute; reflexivity).
  assert (Hv' : MurmurHash32Impl (chars_of "aaae"%string) 0 0 = Some 0x1a1aaa20)
    by (vm_compute; reflexivity).
  split; [ exact H0 | split; [ exact H0 | ] ].
  split; [ exact (conj Ha (conj Hc He)) | ].
  split; [ exact Hne | split; [ exact Hv | split; [ exact Hv' | ] ] ].
  exact (one_block_never_collides 0 0 97 97 97 99 97 97 97 101 [] _ _
           H0 H0 Ha Ha Ha Hc Ha Ha Ha He Hne Hv Hv').
Defined.

(** X5: two different well-formed tails of the same length (one, two or
    three non-negative [char]s), folded into the same accumulator and length,
    never have the same value; with the seed as accumulator and length 0
    these are the inputs of up to three bytes. *)
Theorem equal_length_tails_never_collide Hash Length T T' v v' :
  in_u32 Hash -> in_u32 Length ->
  Forall is_byte T -> Forall is_byte T' ->
  length T = length T' -> (length T < 4)%nat -> T <> T' ->
  MurmurHash32Impl T Hash Length = Some v ->
  MurmurHash32Impl T' Hash Length = Some v' ->
  v <> v'.
Proof.
  intros HH HL HF HF' Hlen Hlt Hne Hv Hv' E. apply Hne. clear Hne.
  apply MurmurHash32Impl_wrap in Hv; [ | exact HH ].
  apply MurmurHash32Impl_wrap in Hv'; [ | exact HH ].
  rewrite Hv, Hv' in E. clear Hv Hv'.
  destruct T as [ | A [ | B [ | C [ | D T ] ] ] ];
    destruct T' as [ | A' [ | B' [ | C' [ | D' T' ] ] ] ];
    cbn [length] in Hlen, Hlt; try lia; try reflexivity;
    cbn [wrap_Impl] in E.
  - inversion_clear HF as [ | ? ? HA _ ].
    inversion_clear HF' as [ | ? ? HA' _ ].
    apply final_inj in E;
      [ | now apply tail1_in_u32 | now apply tail1_in_u32 | apply add32_in_u32 ].
    apply tail1_inj_word in E.
    rewrite !tail1_word_bytes in E by assumption.
    rewrite !(proj1 (tail_word_as_chunk _ 0 0)) in E.
    apply chunk_inj in E; try assumption; try apply zero_is_byte.
    destruct E as (-> & _). reflexivity.
  - inversion_clear HF as [ | ? ? HA HF1 ]. inversion_clear HF1 as [ | ? ? HB _ ].
    inversion_clear HF' as [ | ? ? HA' HF1 ].
    inversion_clear HF1 as [ | ? ? HB' _ ].
    apply final_inj in E;
      [ | now apply tail2_in_u32 | now apply tail2_in_u32 | apply add32_in_u32 ].
    apply tail2_inj_word in E.
    rewrite !tail2_word_bytes in E by assumption.
    rewrite !(proj1 (proj2 (tail_word_as_chunk _ _ 0))) in E.
    apply chunk_inj in E; try assumption; try apply zero_is_byte.
    destruct E as (-> & -> & _). reflexivity.
  - inversion_clear HF as [ | ? ? HA HF1 ]. inversion_clear HF1 as [ | ? ? HB HF2 ].
    inversion_clear HF2 as [ | ? ? HC _ ].
    inversion_clear HF' as [ | ? ? HA' HF1 ].
    inversion_clear HF1 as [ | ? ? HB' HF2 ].
    inversion_clear HF2 as [ | ? ? HC' _ ].
    apply final_inj in E;
      [ | now apply tail3_in_u32 | now apply tail3_in_u32 | apply add32_in_u32 ].
    apply tail3_inj_word in E.
    rewrite !tail3_word_bytes in E by assumption.
    rewrite !(proj2 (proj2 (tail_word_as_chunk _ _ _))) in E.
    apply chunk_inj in E; try assumption; try apply zero_is_byte.
    destruct E as (-> & -> & -> & _). reflexivity.
Qed.

Lemma equal_length_tails_never_collide_witness :
  in_u32 0 /\ in_u32 0 /\
  Forall is_byte (chars_of "ac"%string) /\
  Forall is_byte (chars_of "af"%string) /\
  length (chars_of "ac"%string) = length (chars_of "af"%string) /\
  (length (chars_of "ac"%string) < 4)%nat /\
  chars_of "ac"%string <> chars_of "af"%string /\
  MurmurHash32Impl (chars_of "ac"%string) 0 0 = Some 0x5cef7611 /\
  MurmurHash32Impl (chars_of "af"%string) 0 0 = Some 0x5b382189 /\
  0x5cef7611 <> 0x5b382189.
Proof.
  assert (H0 : in_u32 0) by (unfold in_u32, modulus; lia).
  assert (HF : Forall is_byte (chars_of "ac"%string))
    by (repeat constructor; unfold is_byte; lia).
  assert (HF' : Forall is_byte (chars_of "af"%string))
    by (repeat constructor; unfold is_byte; lia).
  assert (Hlt : (length (chars_of "ac"%string) < 4)%nat) by (cbn; lia).
  assert (Hne : chars_of "ac"%string <> chars_of "af"%string) by discriminate.
  assert (Hv : MurmurHash32Impl (chars_of "ac"%string) 0 0 = Some 0x5cef7611)
    by (vm_compute; reflexivity).
  assert (Hv' : MurmurHash32Impl (chars_of "af"%string) 0 0 = Some 0x5b382189)
    by (vm_compute; reflexivity).
  split; [ exact H0 | split; [ exact H0 | ] ].
  split; [ exact HF | split; [ exact HF' | ] ].
  split; [ reflexivity | split; [ exact Hlt | split; [ exact Hne | ] ] ].
  split; [ exact Hv | split; [ exact Hv' | ] ].
  exact (equal_length_tails_never_collide 0 0 _ _ _ _
           H0 H0 HF HF' eq_refl Hlt Hne Hv Hv').
Defined.

(** ** Negative [char]s, padding and what the seed does not decide *)

Lemma c_shl_char c s :
  0 <= c <= 127 -> 0 <= s <= 24 ->
  c_shl (char_arg c) s = Some (Int, to_i32 (Z.shiftl c s)).
Proof.
  intros Hc Hs. unfold c_shl, char_arg.
  assert (Hb : in_u32 (Z.shiftl c s))
    by (apply shifted_byte_in_u32; [ unfold is_byte; lia | exact Hs ]).
  destruct Hb as [_ Hb]. unfold modulus in Hb.
  destruct (Z.leb_spec 0 c) as [_ | H]; [ | lia ].
  destruct (Z.ltb_spec (Z.shiftl c s) (2 ^ 32)) as [_ | H]; [ | lia ].
  reflexivity.
Qed.

(** The block word when the first [char] is negative and the others are
    not. *)
Lemma block_K0_negative_first A B C D :
  -128 <= A < 0 -> 0 <= B <= 127 -> 0 <= C <= 127 -> 0 <= D <= 127 ->
  c_or (c_or (c_or (c_shl (char_arg D) 24) (c_shl (char_arg C) 16))
             (c_shl (char_arg B) 8)) (char_arg A)
  = Some (Int, A).
Proof.
  intros HA HB HC HD. rewrite !c_shl_char by (assumption || lia).
  unfold c_or, arith, char_arg.
  now rewrite block_word_negative_first.
Qed.

Lemma enum_bind_None_congr e k k' :
  (forall x, k x = None <-> k' x = None) ->
  (enum_bind e k = None <-> enum_bind e k' = None).
Proof.
  intros H. destruct e as [ [t x] | ]; cbn [enum_bind];
    [ apply H | split; reflexivity ].
Qed.

Lemma xor_Hash_never_fails Hash Hash' K :
  (enum Hash1 := c_xor (u32_arg Hash) (enumerator K) ;; Some Hash1) = None <->
  (enum Hash1 := c_xor (u32_arg Hash') (enumerator K) ;; Some Hash1) = None.
Proof. rewrite !c_xor_u32. cbn [enum_bind]. split; discriminate. Qed.

(** X6: when the first [char] of a block is negative and the three others
    are not, the three others do not enter the value at all: the block word
    is the sign-extended first [char], whatever follows it in the block, so
    two such packs are rejected together or have the same value. *)
Theorem negative_first_char_hides_block Hash Length A B C D B' C' D' Tail :
  -128 <= A < 0 ->
  0 <= B <= 127 -> 0 <= C <= 127 -> 0 <= D <= 127 ->
  0 <= B' <= 127 -> 0 <= C' <= 127 -> 0 <= D' <= 127 ->
  MurmurHash32Impl (A :: B :: C :: D :: Tail) Hash Length
  = MurmurHash32Impl (A :: B' :: C' :: D' :: Tail) Hash Length.
Proof.
  intros HA HB HC HD HB' HC' HD'. cbn [MurmurHash32Impl].
  assert (E : MurmurHash32Impl_block Hash A B C D
              = MurmurHash32Impl_block Hash A B' C' D').
  { unfold MurmurHash32Impl_block.
    now rewrite !block_K0_negative_first by assumption. }
  now rewrite E.
Qed.

Lemma negative_first_char_hides_block_witness :
  -128 <= -23 < 0 /\
  (0 <= 97 <= 127 /\ 0 <= 102 <= 127 /\ 0 <= 120 <= 127 /\ 0 <= 121 <= 127 /\
   0 <= 122 <= 127) /\
  MurmurHash32Impl [-23; 97; 97; 102] 0 0 = Some 0xdfd39b28 /\
  MurmurHash32Impl [-23; 97; 97; 102] 0 0
  = MurmurHash32Impl [-23; 120; 121; 122] 0 0.
Proof.
  assert (HA : -128 <= -23 < 0) by lia.
  assert (Ha : 0 <= 97 <= 127) by lia.
  assert (Hf : 0 <= 102 <= 127) by lia.
  assert (Hx : 0 <= 120 <= 127) by lia.
  assert (Hy : 0 <= 121 <= 127) by lia.
  assert (Hz : 0 <= 122 <= 127) by lia.
  split; [ exact HA | ].
  split; [ exact (conj Ha (conj Hf (conj Hx (conj Hy Hz)))) | ].
  split; [ vm_compute; reflexivity | ].
  exact (negative_first_char_hides_block 0 0 (-23) 97 97 102 120 121 122 []
           HA Ha Ha Hf Hx Hy Hz).
Defined.

(** X7: a zero [char] appended to a tail of one or two [char]s changes
    neither whether the tail is well-formed nor the accumulator handed to the
    final calculations, and yet a well-formed value always changes, because
    the length is XORed in before the avalanche. *)
Theorem trailing_zero_changes_value Hash Length A B :
  in_u32 Hash -> in_u32 Length ->
  MurmurHash32Impl_tail2 Hash A 0 = MurmurHash32Impl_tail1 Hash A /\
  MurmurHash32Impl_tail3 Hash A B 0 = MurmurHash32Impl_tail2 Hash A B /\
  (forall v, MurmurHash32Impl [A] Hash Length = Some v ->
     exists v', MurmurHash32Impl [A; 0] Hash Length = Some v' /\ v' <> v) /\
  (forall v, MurmurHash32Impl [A; B] Hash Length = Some v ->
     exists v', MurmurHash32Impl [A; B; 0] Hash Length = Some v' /\ v' <> v).
Proof.
  intros HH HL.
  assert (E1 : MurmurHash32Impl_tail2 Hash A 0 = MurmurHash32Impl_tail1 Hash A)
    by reflexivity.
  assert (E2 : MurmurHash32Impl_tail3 Hash A B 0
               = MurmurHash32Impl_tail2 Hash A B)
    by reflexivity.
  split; [ exact E1 | ]. split; [ exact E2 | ].
  split; intros v Hv; cbn [MurmurHash32Impl] in *.
  - rewrite E1.
    destruct (MurmurHash32Impl_tail1 Hash A) as [ h | ] eqn:E; [ | discriminate ].
    injection Hv as <-. eexists. split; [ reflexivity | ].
    intros Ev. apply final_inj_Length in Ev;
      [ | now apply (tail1_Some_in_u32 Hash A) | apply add32_in_u32
        | apply add32_in_u32 ].
    revert Ev. apply add32_succ_neq; lia.
  - rewrite E2.
    destruct (MurmurHash32Impl_tail2 Hash A B) as [ h | ] eqn:E;
      [ | discriminate ].
    injection Hv as <-. eexists. split; [ reflexivity | ].
    intros Ev. apply final_inj_Length in Ev;
      [ | now apply (tail2_Some_in_u32 Hash A B) | apply add32_in_u32
        | apply add32_in_u32 ].
    revert Ev. apply add32_succ_neq; lia.
Qed.

Lemma trailing_zero_changes_value_witness :
  in_u32 0 /\ in_u32 0 /\
  MurmurHash32Impl [97] 0 0 = Some 0x3c2569b2 /\
  exists v', MurmurHash32Impl [97; 0] 0 0 = Some v' /\ v' <> 0x3c2569b2.
Proof.
  assert (H0 : in_u32 0) by (unfold in_u32, modulus; lia).
  assert (Hv : MurmurHash32Impl [97] 0 0 = Some 0x3c2569b2)
    by (vm_compute; reflexivity).
  split; [ exact H0 | split; [ exact H0 | split; [ exact Hv | ] ] ].
  exact (proj1 (proj2 (proj2 (trailing_zero_changes_value 0 0 97 99 H0 H0)))
           _ Hv).
Defined.

(** X8: accumulator and length stay 32-bit words along the chain: from an
    instantiation whose [Hash] and [Length] are 32-bit words the selected
    specialisation, unless it is ill-formed, gives a 32-bit value or names an
    instantiation whose [Hash] and [Length] are 32-bit words again (so the
    template arguments it passes on are never narrowed). *)
Theorem chain_keeps_32_bit_words i :
  in_u32 (inst_Hash i) -> in_u32 (inst_Length i) ->
  match next i with
  | Value v => in_u32 v
  | Next j => in_u32 (inst_Hash j) /\ in_u32 (inst_Length j)
  | IllFormed => True
  end.
Proof.
  destruct i as [Hash Length [ | A [ | B [ | C [ | D Tail ] ] ] ] ];
    cbn [next inst_Hash inst_Length]; intros HH HL.
  - apply final_in_u32.
  - destruct (MurmurHash32Impl_tail1 Hash A) as [ h | ] eqn:E;
      cbn [next_of inst_Hash inst_Length]; [ | exact I ].
    split; [ now apply (tail1_Some_in_u32 Hash A) | apply add32_in_u32 ].
  - destruct (MurmurHash32Impl_tail2 Hash A B) as [ h | ] eqn:E;
      cbn [next_of inst_Hash inst_Length]; [ | exact I ].
    split; [ now apply (tail2_Some_in_u32 Hash A B) | apply add32_in_u32 ].
  - destruct (MurmurHash32Impl_tail3 Hash A B C) as [ h | ] eqn:E;
      cbn [next_of inst_Hash inst_Length]; [ | exact I ].
    split; [ now apply (tail3_Some_in_u32 Hash A B C) | apply add32_in_u32 ].
  - destruct (MurmurHash32Impl_block Hash A B C D) as [ h | ] eqn:E;
      cbn [next_of inst_Hash inst_Length]; [ | exact I ].
    split; [ now apply (block_Some_in_u32 Hash A B C D) | apply add32_in_u32 ].
Qed.

Lemma chain_keeps_32_bit_words_witness :
  in_u32 0 /\ in_u32 0xfffffffe /\
  next (Inst 0 0xfffffffe (chars_of "aaaca"%string))
  = Next (Inst 0xb2e442a1 2 (chars_of "a"%string)) /\
  match next (Inst 0 0xfffffffe (chars_of "aaaca"%string)) with
  | Value v => in_u32 v
  | Next j => in_u32 (inst_Hash j) /\ in_u32 (inst_Length j)
  | IllFormed => True
  end.
Proof.
  assert (H1 : in_u32 0) by (unfold in_u32, modulus; lia).
  assert (H2 : in_u32 0xfffffffe) by (unfold in_u32, modulus; lia).
  split; [ exact H1 | split; [ exact H2 | ] ].
  split; [ vm_compute; reflexivity | ].
  exact (chain_keeps_32_bit_words (Inst 0 0xfffffffe (chars_of "aaaca"%string))
           H1 H2).
Defined.

(** X10: for every negative [char] and every 32-bit seed, a well-formed
    one-[char] pack gets a digest that differs from Murmur3_32 of its byte:
    the sign extension of the tail word is never harmless. *)
Theorem negative_single_char_diverges Seed A v :
  in_u32 Seed -> -128 <= A < 0 ->
  MurmurHash32 Seed [A] = Some v ->
  v <> Spec.hash32 [byte_of A] Seed.
Proof.
  intros HS HA Hv E.
  assert (Hb : is_byte (byte_of A))
    by (unfold is_byte, byte_of; apply Z.mod_pos_bound; lia).
  apply MurmurHash32Impl_wrap in Hv; [ | exact HS ]. rewrite Hv in E.
  rewrite <- (wrap_hash_refines_bytes Seed [byte_of A]) in E
    by (assumption || (constructor; [ exact Hb | constructor ])).
  unfold wrap_hash in E. cbn [wrap_Impl] in E.
  apply final_inj in E;
    [ | now apply tail1_in_u32 | now apply tail1_in_u32 | apply add32_in_u32 ].
  apply tail1_inj_word in E. rewrite !Z.lxor_0_l in E.
  rewrite (to_u32_id (byte_of A)) in E by now apply byte_in_u32.
  unfold to_u32, byte_of, modulus in E.
  change (2 ^ 32) with 4294967296 in E.
  assert (E1 : A mod 4294967296 = A + 4294967296)
    by (symmetry; apply Z.mod_unique with (-1); lia).
  assert (E2 : A mod 256 = A + 256)
    by (symmetry; apply Z.mod_unique with (-1); lia).
  lia.
Qed.

Lemma negative_single_char_diverges_witness :
  in_u32 0 /\ -128 <= -23 < 0 /\
  MurmurHash32 0 [-23] = Some 0x1a4ae4ef /\
  0x1a4ae4ef <> Spec.hash32 [byte_of (-23)] 0.
Proof.
  assert (H0 : in_u32 0) by (unfold in_u32, modulus; lia).
  assert (HA : -128 <= -23 < 0) by lia.
  assert (Hv : MurmurHash32 0 [-23] = Some 0x1a4ae4ef)
    by (vm_compute; reflexivity).
  split; [ exact H0 | split; [ exact HA | split; [ exact Hv | ] ] ].
  exact (negative_single_char_diverges 0 (-23) _ H0 HA Hv).
Defined.

(** X11: the final calculations give the digest 0 exactly when the
    accumulator equals the length; so the empty pack has digest 0 for seed 0
    only. *)
Theorem zero_digest_iff Hash Length :
  in_u32 Hash -> in_u32 Length ->
  (MurmurHash32Impl_final Hash Length = 0 <-> Hash = Length).
Proof.
  intros HH HL. split.
  - intros E. apply (f_equal unavalanche) in E.
    rewrite unavalanche_final in E by assumption.
    change (unavalanche 0) with 0 in E.
    now apply Z.lxor_eq.
  - intros ->. unfold MurmurHash32Impl_final. cbv zeta.
    rewrite Z.lxor_nilpotent. reflexivity.
Qed.

Lemma zero_digest_iff_witness :
  in_u32 3 /\ in_u32 3 /\ MurmurHash32Impl_final 3 3 = 0.
Proof.
  assert (H3 : in_u32 3) by (unfold in_u32, modulus; lia).
  split; [ exact H3 | split; [ exact H3 | ] ].
  exact (proj2 (zero_digest_iff 3 3 H3 H3) eq_refl).
Defined.

(** X12: whether a pack of up to three [char]s is well-formed does not depend
    on the seed, nor on the accumulator and length a tail starts from: the
    accumulator enters a tail only in the last XOR, which cannot overflow. *)
Theorem tail_acceptance_ignores_seed T Hash Length Hash' Length' :
  (length T < 4)%nat ->
  (MurmurHash32Impl T Hash Length = None
   <-> MurmurHash32Impl T Hash' Length' = None).
Proof.
  intros Hlt.
  assert (E1 : forall A, MurmurHash32Impl_tail1 Hash A = None
                         <-> MurmurHash32Impl_tail1 Hash' A = None).
  { intros A. unfold MurmurHash32Impl_tail1.
    repeat (apply enum_bind_None_congr; intros ?).
    apply xor_Hash_never_fails. }
  assert (E2 : forall A B, MurmurHash32Impl_tail2 Hash A B = None
                           <-> MurmurHash32Impl_tail2 Hash' A B = None).
  { intros A B. unfold MurmurHash32Impl_tail2.
    repeat (apply enum_bind_None_congr; intros ?).
    apply xor_Hash_never_fails. }
  assert (E3 : forall A B C, MurmurHash32Impl_tail3 Hash A B C = None
                             <-> MurmurHash32Impl_tail3 Hash' A B C = None).
  { intros A B C. unfold MurmurHash32Impl_tail3.
    repeat (apply enum_bind_None_congr; intros ?).
    apply xor_Hash_never_fails. }
  destruct T as [ | A [ | B [ | C [ | D T ] ] ] ];
    cbn [length] in Hlt; try lia; cbn [MurmurHash32Impl].
  - split; discriminate.
  - specialize (E1 A).
    destruct (MurmurHash32Impl_tail1 Hash A), (MurmurHash32Impl_tail1 Hash' A);
      split; intros H; try reflexivity; try discriminate;
      destruct E1 as [E1 E1']; (now apply E1 in H) || (now apply E1' in H)
      || (specialize (E1 eq_refl); discriminate)
      || (specialize (E1' eq_refl); discriminate).
  - specialize (E2 A B).
    destruct (MurmurHash32Impl_tail2 Hash A B),
      (MurmurHash32Impl_tail2 Hash' A B);
      split; intros H; try reflexivity; try discriminate;
      destruct E2 as [E2 E2'];
      (specialize (E2 eq_refl); discriminate)
      || (specialize (E2' eq_refl); discriminate).
  - specialize (E3 A B C).
    destruct (MurmurHash32Impl_tail3 Hash A B C),
      (MurmurHash32Impl_tail3 Hash' A B C);
      split; intros H; try reflexivity; try discriminate;
      destruct E3 as [E3 E3'];
      (specialize (E3 eq_refl); discriminate)
      || (specialize (E3' eq_refl); discriminate).
Qed.

Lemma tail_acceptance_ignores_seed_witness :
  (length (chars_of "ab"%string) < 4)%nat /\
  MurmurHash32Impl (chars_of "ab"%string) 0 0 = None /\
  MurmurHash32Impl (chars_of "ab"%string) 0xdeadbeef 8 = None.
Proof.
  assert (Hlt : (length (chars_of "ab"%string) < 4)%nat) by (cbn; lia).
  assert (H0 : MurmurHash32Impl (chars_of "ab"%string) 0 0 = None)
    by (vm_compute; reflexivity).
  split; [ exact Hlt | split; [ exact H0 | ] ].
  exact (proj1 (tail_acceptance_ignores_seed (chars_of "ab"%string)
                  0 0 0xdeadbeef 8 Hlt) H0).
Defined.
